(** * Sample-Data-Generator: the three agent tools and the conversation loop

    A shallow embedding of [Sample-Data-Generator/main.py].  Python values
    are an inductive type, exceptions are data carried by a [result], the
    file system is an explicit state, and the hosted language model is an
    oracle passed to the loop.  The [json] module and the text layer of
    [open] are CPython 3.11 library code; they are embedded here from
    [json/encoder.py], [json/decoder.py] and [json/scanner.py]. *)

From Stdlib Require Import String Ascii List NArith ZArith Bool Lia.
From Stdlib Require DecimalN DecimalPos DecimalFacts.
Import ListNotations.

(** ** Python strings

    A [str] is a sequence of Unicode code points.  Literals of the source
    are written [u "..."]: every character of such a literal is ASCII. *)

Definition ustring := list N.

Definition ord (a : ascii) : N := N_of_ascii a.

Fixpoint u (s : string) : ustring :=
  match s with
  | EmptyString => []
  | String a s' => ord a :: u s'
  end.

Definition ustring_eqb (s t : ustring) : bool :=
  if list_eq_dec N.eq_dec s t then true else false.

(** ** Exceptions and results *)

Inductive exn_class :=
| ValueError | TypeError | IndexError | KeyError
| FileNotFoundError | PermissionError | IsADirectoryError | OSError
| UnicodeDecodeError | JSONDecodeError | RecursionError | EOFError.

(** An exception object: its class and the text [str(e)] gives. *)
Record exn := Exn { exn_cls : exn_class; exn_str : ustring }.

Inductive result (A : Type) :=
| Ok (a : A)
| Raise (e : exn).
Arguments Ok {A} a.
Arguments Raise {A} e.

Definition bind {A B} (r : result A) (k : A -> result B) : result B :=
  match r with
  | Ok a => k a
  | Raise e => Raise e
  end.

Notation "x <- r ;; k" := (bind r (fun x => k))
  (at level 61, r at next level, right associativity).

(** ** Python values

    Dictionary keys are the hashable scalars; a dictionary is the list of
    its items in insertion order.  A float is kept as the literal that
    denotes it: float arithmetic and [repr] are outside this embedding. *)

Inductive key :=
| KNone
| KBool (b : bool)
| KInt (z : Z)
| KStr (s : ustring).

Unset Elimination Schemes.
Inductive value :=
| VNone
| VBool (b : bool)
| VInt (z : Z)
| VFloat (lit : ustring)
| VStr (s : ustring)
| VList (l : list value)
| VDict (d : list (key * value)).
Set Elimination Schemes.

(** Induction on values, with the hypothesis for every element of a list
    and every value of a dictionary. *)
Section ValueInd.

Variable P : value -> Prop.
Hypothesis HNone : P VNone.
Hypothesis HBool : forall b, P (VBool b).
Hypothesis HInt : forall z, P (VInt z).
Hypothesis HFloat : forall lit, P (VFloat lit).
Hypothesis HStr : forall s, P (VStr s).
Hypothesis HList : forall l, Forall P l -> P (VList l).
Hypothesis HDict : forall d, Forall (fun kv => P (snd kv)) d -> P (VDict d).

Fixpoint value_ind (v : value) : P v :=
  match v with
  | VNone => HNone
  | VBool b => HBool b
  | VInt z => HInt z
  | VFloat lit => HFloat lit
  | VStr s => HStr s
  | VList l =>
      HList l
        ((fix all (l : list value) : Forall P l :=
            match l with
            | [] => Forall_nil P
            | x :: l' => Forall_cons x (value_ind x) (all l')
            end) l)
  | VDict d =>
      HDict d
        ((fix all (d : list (key * value)) : Forall (fun kv => P (snd kv)) d :=
            match d with
            | [] => Forall_nil _
            | kv :: d' => Forall_cons kv (value_ind (snd kv)) (all d')
            end) d)
  end.

End ValueInd.

Definition dict := list (key * value).

(** Key equality is Python's [==]: [True == 1] and [False == 0]. *)
Definition key_eqb (a b : key) : bool :=
  match a, b with
  | KNone, KNone => true
  | KBool x, KBool y => Bool.eqb x y
  | KInt x, KInt y => Z.eqb x y
  | KBool x, KInt y | KInt y, KBool x => Z.eqb y (if x then 1 else 0)
  | KStr s, KStr t => ustring_eqb s t
  | _, _ => false
  end.

Fixpoint dict_get (d : dict) (k : key) : option value :=
  match d with
  | [] => None
  | (k', v) :: d' => if key_eqb k k' then Some v else dict_get d' k
  end.

(** [d[k] = v]: an existing key keeps its place (and its key object), a new
    one is appended. *)
Fixpoint dict_setitem (d : dict) (k : key) (v : value) : dict :=
  match d with
  | [] => [(k, v)]
  | (k', v') :: d' =>
      if key_eqb k k' then (k', v) :: d' else (k', v') :: dict_setitem d' k v
  end.

(** A dictionary holds each key once. *)
Fixpoint dict_wf (d : dict) : Prop :=
  match d with
  | [] => True
  | (k, _) :: d' => dict_get d' k = None /\ dict_wf d'
  end.

Definition keys (d : dict) : list key := map fst d.
Definition values (d : dict) : list value := map snd d.

Definition isinstance_str (k : key) : bool :=
  match k with KStr _ => true | _ => false end.

Definition isinstance_list (v : value) : bool :=
  match v with VList _ => true | _ => false end.

Definition is_digit (c : N) : bool := (48 <=? c)%N && (c <=? 57)%N.

(** Truth value of an object, as [all] tests it.  For a float literal:
    some digit of the mantissa is not zero. *)
Fixpoint mantissa_nonzero (lit : ustring) : bool :=
  match lit with
  | [] => false
  | c :: lit' =>
      if (c =? 101)%N || (c =? 69)%N then false
      else (is_digit c && negb (c =? 48)%N) || mantissa_nonzero lit'
  end.

Definition truthy (v : value) : bool :=
  match v with
  | VNone => false
  | VBool b => b
  | VInt z => negb (z =? 0)%Z
  | VFloat lit => mantissa_nonzero lit
  | VStr s => match s with [] => false | _ => true end
  | VList l => match l with [] => false | _ => true end
  | VDict d => match d with [] => false | _ => true end
  end.

Definition type_name (v : value) : ustring :=
  match v with
  | VNone => u "NoneType"
  | VBool _ => u "bool"
  | VInt _ => u "int"
  | VFloat _ => u "float"
  | VStr _ => u "str"
  | VList _ => u "list"
  | VDict _ => u "dict"
  end.

(** [len(v)] *)
Definition py_len (v : value) : result nat :=
  match v with
  | VStr s => Ok (length s)
  | VList l => Ok (length l)
  | VDict d => Ok (length d)
  | _ => Raise (Exn TypeError
                 (u "object of type '" ++ type_name v ++ u "' has no len()"))
  end.

(** [min] of a stream of lengths. *)
Definition py_min (ns : list nat) : result nat :=
  match ns with
  | [] => Raise (Exn ValueError (u "min() arg is an empty sequence"))
  | n :: ns' => Ok (fold_left Nat.min ns' n)
  end.

Fixpoint mapM {A B} (f : A -> result B) (l : list A) : result (list B) :=
  match l with
  | [] => Ok []
  | a :: l' => b <- f a ;; bs <- mapM f l' ;; Ok (b :: bs)
  end.

(** [v[i]] for an index [i] of [range(n)]. *)
Definition getitem (v : value) (i : nat) : result value :=
  match v with
  | VList l =>
      match nth_error l i with
      | Some x => Ok x
      | None => Raise (Exn IndexError (u "list index out of range"))
      end
  | VStr s =>
      match nth_error s i with
      | Some c => Ok (VStr [c])
      | None => Raise (Exn IndexError (u "string index out of range"))
      end
  | VDict d =>
      match dict_get d (KInt (Z.of_nat i)) with
      | Some x => Ok x
      | None => Raise (Exn KeyError (u ""))
      end
  | _ => Raise (Exn TypeError
                 (u "'" ++ type_name v ++ u "' object is not subscriptable"))
  end.

(** ** The Record Synthesizer: [generate_sample_data] *)

Definition invalid_format_msg : ustring :=
  u "Invalid input format. data_fields must be a dictionary of string keys and list values.".

Definition empty_list_msg : ustring :=
  u "All lists in data_fields must be non-empty.".

Definition error_result (msg : ustring) : value :=
  VDict [(KStr (u "error"), VStr msg)].

Definition data_result (data : list value) : value :=
  VDict [(KStr (u "data"), VList data)].

(** [{k: v[i] for k, v in data_fields.items()}], filled item by item. *)
Fixpoint record_at (i : nat) (its : dict) (acc : dict) : result dict :=
  match its with
  | [] => Ok acc
  | (k, v) :: its' =>
      x <- getitem v i ;; record_at i its' (dict_setitem acc k x)
  end.

(** [for i in range(num_records): data.append(...)] *)
Fixpoint append_records (data_fields : dict) (idxs : list nat)
    (data : list value) : result (list value) :=
  match idxs with
  | [] => Ok data
  | i :: idxs' =>
      r <- record_at i data_fields [] ;;
      append_records data_fields idxs' (data ++ [VDict r])
  end.

Definition generate_sample_data (data_fields : dict) : result value :=
  if negb (forallb (fun '(k, v) => isinstance_str k && isinstance_list v)
             data_fields)
  then Ok (error_result invalid_format_msg)
  else if negb (forallb truthy (values data_fields))
  then Ok (error_result empty_list_msg)
  else
    lens <- mapM py_len (values data_fields) ;;
    num_records <- py_min lens ;;
    data <- append_records data_fields (seq 0 num_records) [] ;;
    Ok (data_result data).

(** ** Decimal text of integers: [int.__repr__] and [int(...)] *)

Fixpoint uint_chars (d : Decimal.uint) : ustring :=
  match d with
  | Decimal.Nil => []
  | Decimal.D0 d => 48%N :: uint_chars d
  | Decimal.D1 d => 49%N :: uint_chars d
  | Decimal.D2 d => 50%N :: uint_chars d
  | Decimal.D3 d => 51%N :: uint_chars d
  | Decimal.D4 d => 52%N :: uint_chars d
  | Decimal.D5 d => 53%N :: uint_chars d
  | Decimal.D6 d => 54%N :: uint_chars d
  | Decimal.D7 d => 55%N :: uint_chars d
  | Decimal.D8 d => 56%N :: uint_chars d
  | Decimal.D9 d => 57%N :: uint_chars d
  end.

Definition digit_uint (c : N) (d : Decimal.uint) : Decimal.uint :=
  if (c =? 48)%N then Decimal.D0 d
  else if (c =? 49)%N then Decimal.D1 d
  else if (c =? 50)%N then Decimal.D2 d
  else if (c =? 51)%N then Decimal.D3 d
  else if (c =? 52)%N then Decimal.D4 d
  else if (c =? 53)%N then Decimal.D5 d
  else if (c =? 54)%N then Decimal.D6 d
  else if (c =? 55)%N then Decimal.D7 d
  else if (c =? 56)%N then Decimal.D8 d
  else Decimal.D9 d.

Fixpoint uint_of_digits (s : ustring) : Decimal.uint :=
  match s with
  | [] => Decimal.Nil
  | c :: s' => digit_uint c (uint_of_digits s')
  end.

Definition N_repr (n : N) : ustring := uint_chars (N.to_uint n).

Definition nat_repr (n : nat) : ustring := N_repr (N.of_nat n).

Definition int_repr (z : Z) : ustring :=
  match z with
  | Z0 => N_repr 0
  | Zpos p => N_repr (Npos p)
  | Zneg p => 45%N :: N_repr (Npos p)
  end.

(** ** The [json] module *)

Module Json.

Local Open Scope N_scope.

(** *** Encoder ([json/encoder.py]) *)

Definition hex_digit (n : N) : N := if n <? 10 then 48 + n else 87 + n.

(** ['{0:04x}'.format(n)] for [n < 0x10000] *)
Definition hex4 (n : N) : ustring :=
  [hex_digit (n / 4096 mod 16); hex_digit (n / 256 mod 16);
   hex_digit (n / 16 mod 16); hex_digit (n mod 16)].

Definition escape_u (n : N) : ustring := 92 :: 117 :: hex4 n.

(** [ESCAPE_DCT]: the short escapes and the other control characters. *)
Definition escape_dct (c : N) : option ustring :=
  if c =? 92 then Some [92; 92]
  else if c =? 34 then Some [92; 34]
  else if c =? 8 then Some [92; 98]
  else if c =? 12 then Some [92; 102]
  else if c =? 10 then Some [92; 110]
  else if c =? 13 then Some [92; 114]
  else if c =? 9 then Some [92; 116]
  else if c <? 32 then Some (escape_u c)
  else None.

(** What one character becomes: [ESCAPE] for [ensure_ascii=False],
    [ESCAPE_ASCII] (everything outside [' '..'~'], astral characters as a
    surrogate pair) for [ensure_ascii=True]. *)
Definition escape_char (ensure_ascii : bool) (c : N) : ustring :=
  match escape_dct c with
  | Some e => e
  | None =>
      if ensure_ascii && negb ((32 <=? c) && (c <=? 126)) then
        if c <? 65536 then escape_u c
        else
          let n := c - 65536 in
          let s1 := N.lor 55296 (N.land (N.shiftr n 10) 1023) in
          let s2 := N.lor 56320 (N.land n 1023) in
          escape_u s1 ++ escape_u s2
      else [c]
  end.

Definition encode_basestring (ensure_ascii : bool) (s : ustring) : ustring :=
  34 :: flat_map (escape_char ensure_ascii) s ++ [34].

(** A key of another type than [str] is written as the text of its value. *)
Definition key_text (k : key) : ustring :=
  match k with
  | KStr s => s
  | KBool true => u "true"
  | KBool false => u "false"
  | KNone => u "null"
  | KInt z => int_repr z
  end.

Definition item_separator (indent : option nat) : ustring :=
  match indent with Some _ => u "," | None => u ", " end.

Definition key_separator : ustring := u ": ".

(** ['\n' + _indent * _current_indent_level], nothing without [indent]. *)
Definition newline_indent (indent : option nat) (level : nat) : ustring :=
  match indent with
  | Some n => 10 :: repeat 32 (n * level)%nat
  | None => []
  end.

(** [_iterencode], its chunks joined. *)
Fixpoint iterencode (ensure_ascii : bool) (indent : option nat)
    (level : nat) (o : value) {struct o} : ustring :=
  match o with
  | VStr s => encode_basestring ensure_ascii s
  | VNone => u "null"
  | VBool true => u "true"
  | VBool false => u "false"
  | VInt z => int_repr z
  | VFloat lit => lit
  | VList [] => u "[]"
  | VList (x :: lst) =>
      let separator := item_separator indent ++ newline_indent indent (S level) in
      u "[" ++ newline_indent indent (S level)
        ++ iterencode ensure_ascii indent (S level) x
        ++ (fix rest (l : list value) : ustring :=
              match l with
              | [] => []
              | y :: l' =>
                  separator ++ iterencode ensure_ascii indent (S level) y
                    ++ rest l'
              end) lst
        ++ newline_indent indent level ++ u "]"
  | VDict [] => u "{}"
  | VDict ((k, x) :: dct) =>
      let separator := item_separator indent ++ newline_indent indent (S level) in
      u "{" ++ newline_indent indent (S level)
        ++ encode_basestring ensure_ascii (key_text k) ++ key_separator
        ++ iterencode ensure_ascii indent (S level) x
        ++ (fix rest (d : list (key * value)) : ustring :=
              match d with
              | [] => []
              | (k', y) :: d' =>
                  separator
                    ++ encode_basestring ensure_ascii (key_text k')
                    ++ key_separator
                    ++ iterencode ensure_ascii indent (S level) y
                    ++ rest d'
              end) dct
        ++ newline_indent indent level ++ u "}"
  end.

(** [json.dumps(obj, indent=..., ensure_ascii=...)] *)
Definition dumps (ensure_ascii : bool) (indent : option nat) (obj : value)
  : ustring :=
  iterencode ensure_ascii indent 0 obj.

(** *** Decoder ([json/decoder.py], [json/scanner.py] and their C
    counterparts, which are the ones [json.loads] runs)

    The decoder walks a suffix of the document.  A failure keeps the
    suffix that starts at the reported position. *)

Inductive scan (A : Type) :=
| Scanned (a : A) (rest : ustring)
| Failed (msg : ustring) (at_suffix : ustring)
| TooDeep.
Arguments Scanned {A} a rest.
Arguments Failed {A} msg at_suffix.
Arguments TooDeep {A}.

Definition is_ws (c : N) : bool :=
  (c =? 32) || (c =? 9) || (c =? 10) || (c =? 13).

Fixpoint skip_ws (s : ustring) : ustring :=
  match s with
  | c :: s' => if is_ws c then skip_ws s' else s
  | [] => []
  end.

Definition hexval (c : N) : option N :=
  if is_digit c then Some (c - 48)
  else if (97 <=? c) && (c <=? 102) then Some (c - 87)
  else if (65 <=? c) && (c <=? 70) then Some (c - 55)
  else None.

Definition hex4_value (h1 h2 h3 h4 : N) : option N :=
  match hexval h1, hexval h2, hexval h3, hexval h4 with
  | Some a, Some b, Some c, Some d => Some (((a * 16 + b) * 16 + c) * 16 + d)
  | _, _, _, _ => None
  end.

(** The [BACKSLASH] table. *)
Definition backslash (c : N) : option N :=
  if c =? 34 then Some 34
  else if c =? 92 then Some 92
  else if c =? 47 then Some 47
  else if c =? 98 then Some 8
  else if c =? 102 then Some 12
  else if c =? 110 then Some 10
  else if c =? 114 then Some 13
  else if c =? 116 then Some 9
  else None.

Definition is_high_surrogate (c : N) : bool := (55296 <=? c) && (c <=? 56319).
Definition is_low_surrogate (c : N) : bool := (56320 <=? c) && (c <=? 57343).

Definition join_surrogates (c1 c2 : N) : N :=
  65536 + N.lor (N.shiftl (c1 - 55296) 10) (c2 - 56320).

Definition unterminated_msg : ustring := u "Unterminated string starting at".
Definition invalid_control_msg : ustring := u "Invalid control character at".
Definition invalid_escape_msg : ustring := u "Invalid \escape".
Definition invalid_uXXXX_msg : ustring := u "Invalid \uXXXX escape".
Definition expecting_value_msg : ustring := u "Expecting value".
Definition expecting_name_msg : ustring :=
  u "Expecting property name enclosed in double quotes".
Definition expecting_colon_msg : ustring := u "Expecting ':' delimiter".
Definition expecting_comma_msg : ustring := u "Expecting ',' delimiter".
Definition extra_data_msg : ustring := u "Extra data".
Definition bom_msg : ustring :=
  u "Unexpected UTF-8 BOM (decode using utf-8-sig)".

(** [scanstring(s, end)], strict: [begin] is the suffix at the opening
    quote, [s] the suffix after it, [acc] the characters read so far in
    reverse.  A [\uXXXX] escape must be followed by one more character, and
    a high surrogate pairs with a following [\uXXXX] low surrogate only when
    that one is followed by one more character too. *)
Fixpoint scanstring (begin s acc : ustring) {struct s} : scan ustring :=
  match s with
  | [] => Failed unterminated_msg begin
  | c :: s1 =>
      if c =? 34 then Scanned (rev acc) s1
      else if c =? 92 then
        match s1 with
        | [] => Failed unterminated_msg begin
        | e :: s2 =>
            if e =? 117 then
              match s2 with
              | h1 :: h2 :: h3 :: h4 :: ((_ :: _) as s3) =>
                  match hex4_value h1 h2 h3 h4 with
                  | None => Failed invalid_uXXXX_msg s1
                  | Some c1 =>
                      match s3 with
                      | b :: ((v :: g1 :: g2 :: g3 :: g4 :: ((_ :: _) as s4))
                              as s3') =>
                          if is_high_surrogate c1 && (b =? 92) && (v =? 117)
                          then
                            match hex4_value g1 g2 g3 g4 with
                            | None => Failed invalid_uXXXX_msg s3'
                            | Some c2 =>
                                if is_low_surrogate c2
                                then scanstring begin s4
                                       (join_surrogates c1 c2 :: acc)
                                else scanstring begin s3 (c1 :: acc)
                            end
                          else scanstring begin s3 (c1 :: acc)
                      | _ => scanstring begin s3 (c1 :: acc)
                      end
                  end
              | _ => Failed invalid_uXXXX_msg s1
              end
            else
              match backslash e with
              | Some c' => scanstring begin s2 (c' :: acc)
              | None => Failed invalid_escape_msg s
              end
        end
      else if c <=? 31 then Failed invalid_control_msg s
      else scanstring begin s1 (c :: acc)
  end.

Fixpoint span_digits (s : ustring) : ustring * ustring :=
  match s with
  | c :: s' =>
      if is_digit c then let (ds, r) := span_digits s' in (c :: ds, r)
      else ([], s)
  | [] => ([], [])
  end.

(** The fraction and the exponent of [NUMBER_RE], each taken only when it
    has a digit. *)
Definition match_frac (s : ustring) : ustring * ustring :=
  match s with
  | c :: s' =>
      if c =? 46 then
        match span_digits s' with
        | ([], _) => ([], s)
        | (ds, r) => (c :: ds, r)
        end
      else ([], s)
  | [] => ([], s)
  end.

Definition match_exp (s : ustring) : ustring * ustring :=
  match s with
  | e :: s' =>
      if (e =? 101) || (e =? 69) then
        let (sign, s'') :=
          match s' with
          | c :: t => if (c =? 43) || (c =? 45) then ([c], t) else ([], s')
          | [] => ([], s')
          end in
        match span_digits s'' with
        | ([], _) => ([], s)
        | (ds, r) => (e :: sign ++ ds, r)
        end
      else ([], s)
  | [] => ([], s)
  end.

(** [NUMBER_RE.match]: the integer part, the fraction, the exponent and
    what follows the number.  Digits are the ASCII ones. *)
Definition match_number (s : ustring)
  : option (ustring * ustring * ustring * ustring) :=
  let (sign, s1) :=
    match s with
    | c :: s' => if c =? 45 then ([c], s') else ([], s)
    | [] => ([], s)
    end in
  match s1 with
  | c :: s2 =>
      if is_digit c then
        let (ds, s3) := if c =? 48 then ([], s2) else span_digits s2 in
        let (frac, s4) := match_frac s3 in
        let (exp, s5) := match_exp s4 in
        Some (sign ++ c :: ds, frac, exp, s5)
      else None
  | [] => None
  end.

(** [int(text)] for an optional sign and decimal digits. *)
Definition int_of_text (t : ustring) : Z :=
  match t with
  | c :: ds =>
      if c =? 45 then Z.opp (Z.of_N (N.of_uint (uint_of_digits ds)))
      else Z.of_N (N.of_uint (uint_of_digits t))
  | [] => 0%Z
  end.

Fixpoint strip_prefix (p s : ustring) : option ustring :=
  match p with
  | [] => Some s
  | c :: p' =>
      match s with
      | d :: s' => if c =? d then strip_prefix p' s' else None
      | [] => None
      end
  end.

(** The scalar cases of [_scan_once] other than strings. *)
Definition scan_scalar (s : ustring) : scan value :=
  match strip_prefix (u "null") s with
  | Some r => Scanned VNone r
  | None =>
  match strip_prefix (u "true") s with
  | Some r => Scanned (VBool true) r
  | None =>
  match strip_prefix (u "false") s with
  | Some r => Scanned (VBool false) r
  | None =>
  match match_number s with
  | Some (integer, [], [], r) => Scanned (VInt (int_of_text integer)) r
  | Some (integer, frac, exp, r) => Scanned (VFloat (integer ++ frac ++ exp)) r
  | None =>
  match strip_prefix (u "NaN") s with
  | Some r => Scanned (VFloat (u "NaN")) r
  | None =>
  match strip_prefix (u "Infinity") s with
  | Some r => Scanned (VFloat (u "Infinity")) r
  | None =>
  match strip_prefix (u "-Infinity") s with
  | Some r => Scanned (VFloat (u "-Infinity")) r
  | None => Failed expecting_value_msg s
  end end end end end end end.

(** [_scan_once], [JSONArray] and [JSONObject].  Each nested value and each
    element of a container takes one unit of [fuel]; [loads] gives more
    than the document can use. *)
Fixpoint scan_once (fuel : nat) (s : ustring) {struct fuel} : scan value :=
  match fuel with
  | O => TooDeep
  | S fuel' =>
      match s with
      | [] => Failed expecting_value_msg s
      | c :: s1 =>
          if c =? 34 then
            match scanstring s s1 [] with
            | Scanned t r => Scanned (VStr t) r
            | Failed m a => Failed m a
            | TooDeep => TooDeep
            end
          else if c =? 123 then
            match skip_ws s1 with
            | (c2 :: r) as s2 =>
                if c2 =? 125 then Scanned (VDict []) r
                else object_loop fuel' s2 []
            | [] => object_loop fuel' [] []
            end
          else if c =? 91 then
            match skip_ws s1 with
            | (c2 :: r) as s2 =>
                if c2 =? 93 then Scanned (VList []) r
                else array_loop fuel' s2 []
            | [] => array_loop fuel' [] []
            end
          else scan_scalar s
      end
  end

with array_loop (fuel : nat) (s : ustring) (acc : list value) {struct fuel}
  : scan value :=
  match fuel with
  | O => TooDeep
  | S fuel' =>
      match scan_once fuel' s with
      | Scanned v r =>
          match skip_ws r with
          | (c :: r') as r1 =>
              if c =? 93 then Scanned (VList (rev (v :: acc))) r'
              else if c =? 44 then array_loop fuel' (skip_ws r') (v :: acc)
              else Failed expecting_comma_msg r1
          | [] => Failed expecting_comma_msg []
          end
      | Failed m a => Failed m a
      | TooDeep => TooDeep
      end
  end

with object_loop (fuel : nat) (s : ustring) (pairs : dict) {struct fuel}
  : scan value :=
  match fuel with
  | O => TooDeep
  | S fuel' =>
      match s with
      | q :: s1 =>
          if q =? 34 then
            match scanstring s s1 [] with
            | Scanned k r =>
                match skip_ws r with
                | (col :: r2) as r1 =>
                    if col =? 58 then
                      match scan_once fuel' (skip_ws r2) with
                      | Scanned v r3 =>
                          let pairs' := dict_setitem pairs (KStr k) v in
                          match skip_ws r3 with
                          | (d :: r5) as r4 =>
                              if d =? 125 then Scanned (VDict pairs') r5
                              else if d =? 44
                              then object_loop fuel' (skip_ws r5) pairs'
                              else Failed expecting_comma_msg r4
                          | [] => Failed expecting_comma_msg []
                          end
                      | Failed m a => Failed m a
                      | TooDeep => TooDeep
                      end
                    else Failed expecting_colon_msg r1
                | [] => Failed expecting_colon_msg []
                end
            | Failed m a => Failed m a
            | TooDeep => TooDeep
            end
          else Failed expecting_name_msg s
      | [] => Failed expecting_name_msg []
      end
  end.

(** Characters of the last line of [s], after [n] already counted. *)
Fixpoint column (s : ustring) (n : nat) : nat :=
  match s with
  | [] => n
  | c :: s' => if c =? 10 then column s' 0 else column s' (S n)
  end.

(** [JSONDecodeError(msg, doc, pos)] *)
Definition decode_error (msg doc : ustring) (pos : nat) : exn :=
  let before := firstn pos doc in
  let lineno := S (count_occ N.eq_dec before 10) in
  let colno := S (column before 0) in
  Exn JSONDecodeError
    (msg ++ u ": line " ++ nat_repr lineno ++ u " column " ++ nat_repr colno
       ++ u " (char " ++ nat_repr pos ++ u ")").

Definition position (doc at_suffix : ustring) : nat :=
  (length doc - length at_suffix)%nat.

(** [JSONDecoder.decode] *)
Definition decode (doc : ustring) : result value :=
  match scan_once (S (2 * length doc)) (skip_ws doc) with
  | Scanned obj r =>
      match skip_ws r with
      | [] => Ok obj
      | (_ :: _) as r' =>
          Raise (decode_error extra_data_msg doc (position doc r'))
      end
  | Failed msg a => Raise (decode_error msg doc (position doc a))
  | TooDeep => Raise (Exn RecursionError (u "maximum recursion depth exceeded"))
  end.

(** [json.loads(s)] for a [str] *)
Definition loads (doc : ustring) : result value :=
  match doc with
  | c :: _ => if c =? 65279 then Raise (decode_error bom_msg doc 0)
              else decode doc
  | [] => decode doc
  end.

(** *** The text of a container, piece by piece *)

(** What separates two items: [item_separator + newline_indent]. *)
Definition separator (indent : option nat) (level : nat) : ustring :=
  item_separator indent ++ newline_indent indent (S level).

(** The items of a list after the first, each behind its separator. *)
Fixpoint list_rest (ensure_ascii : bool) (indent : option nat) (level : nat)
    (l : list value) : ustring :=
  match l with
  | [] => []
  | y :: l' =>
      separator indent level ++ iterencode ensure_ascii indent (S level) y
        ++ list_rest ensure_ascii indent level l'
  end.

(** One member of an object: key, [": "], value. *)
Definition member (ensure_ascii : bool) (indent : option nat) (level : nat)
    (k : key) (x : value) : ustring :=
  encode_basestring ensure_ascii (key_text k) ++ key_separator
    ++ iterencode ensure_ascii indent (S level) x.

Fixpoint dict_rest (ensure_ascii : bool) (indent : option nat) (level : nat)
    (d : dict) : ustring :=
  match d with
  | [] => []
  | (k, y) :: d' =>
      separator indent level ++ member ensure_ascii indent level k y
        ++ dict_rest ensure_ascii indent level d'
  end.

(** What may follow a value in an encoding: nothing, a comma, a closing
    bracket or brace, or the newline before one. *)
Definition delimited (rest : ustring) : bool :=
  match rest with
  | [] => true
  | c :: _ => (c =? 44) || (c =? 93) || (c =? 125) || (c =? 10)
  end.

(** The first character of an encoding: ASCII, no whitespace, no closing
    bracket or brace, no comma. *)
Definition value_start (c : N) : Prop :=
  is_ws c = false /\ c <> 93 /\ c <> 125 /\ c <> 44 /\ c < 128.

End Json.

(** ** Files: [open(path, mode, encoding="utf-8")] on a POSIX system

    A regular file is known by the text its bytes decode to, or by the
    message of the codec when they are not UTF-8.  Encoding never fails
    here: a [str] that holds a surrogate code point, which UTF-8 cannot
    encode, is outside this embedding. *)

Module Fs.

Local Open Scope N_scope.

Inductive file_data :=
| Utf8 (text : ustring)
| NotUtf8 (reason : ustring).

Record file := File { readable : bool; writable : bool; data : file_data }.

Inductive node :=
| Regular (f : file)
| Directory.

(** [create_error path] is the exception that creating [path] raises, if
    any (no such directory, directory not writable). *)
Record filesystem := Filesystem {
  node_at : ustring -> option node;
  create_error : ustring -> option exn
}.

Definition set_node (fs : filesystem) (path : ustring) (n : node)
  : filesystem :=
  {| node_at := fun p => if ustring_eqb p path then Some n else node_at fs p;
     create_error := create_error fs |}.

Definition hex2 (c : N) : ustring :=
  [Json.hex_digit (c / 16 mod 16); Json.hex_digit (c mod 16)].

Definition repr_char (quote c : N) : ustring :=
  if (c =? quote) || (c =? 92) then [92; c]
  else if c =? 9 then [92; 116]
  else if c =? 10 then [92; 110]
  else if c =? 13 then [92; 114]
  else if (c <? 32) || (c =? 127) then 92 :: 120 :: hex2 c
  else [c].

(** [repr] of a [str]; code points above [0x7f] are shown as they are. *)
Definition py_repr (s : ustring) : ustring :=
  let quote :=
    if existsb (N.eqb 39) s && negb (existsb (N.eqb 34) s) then 34 else 39 in
  quote :: flat_map (repr_char quote) s ++ [quote].

Definition os_error (cls : exn_class) (errno : N) (strerror path : ustring)
  : exn :=
  Exn cls (u "[Errno " ++ N_repr errno ++ u "] " ++ strerror ++ u ": "
             ++ py_repr path).

Definition not_found (path : ustring) : exn :=
  os_error FileNotFoundError 2 (u "No such file or directory") path.
Definition permission_denied (path : ustring) : exn :=
  os_error PermissionError 13 (u "Permission denied") path.
Definition is_a_directory (path : ustring) : exn :=
  os_error IsADirectoryError 21 (u "Is a directory") path.

(** [open(path, "r", encoding="utf-8")] *)
Definition open_r (fs : filesystem) (path : ustring) : result file :=
  match node_at fs path with
  | None => Raise (not_found path)
  | Some Directory => Raise (is_a_directory path)
  | Some (Regular f) =>
      if readable f then Ok f else Raise (permission_denied path)
  end.

(** Reading translates ['\r\n'] and ['\r'] to ['\n']. *)
Fixpoint universal_newlines (s : ustring) : ustring :=
  match s with
  | [] => []
  | c :: s' =>
      if c =? 13 then
        10 :: match s' with
              | d :: s'' =>
                  if d =? 10 then universal_newlines s''
                  else universal_newlines s'
              | [] => []
              end
      else c :: universal_newlines s'
  end.

(** A text without carriage return is read as it is. *)
Definition no_cr (s : ustring) : bool := forallb (fun c => negb (c =? 13)) s.

(** [f.read()] *)
Definition read (f : file) : result ustring :=
  match data f with
  | Utf8 text => Ok (universal_newlines text)
  | NotUtf8 reason => Raise (Exn UnicodeDecodeError reason)
  end.

(** [open(path, "w", encoding="utf-8")]: the file is created or emptied. *)
Definition open_w (fs : filesystem) (path : ustring) : result filesystem :=
  match node_at fs path with
  | None =>
      match create_error fs path with
      | Some e => Raise e
      | None => Ok (set_node fs path (Regular (File true true (Utf8 []))))
      end
  | Some Directory => Raise (is_a_directory path)
  | Some (Regular f) =>
      if writable f
      then Ok (set_node fs path
                 (Regular (File (readable f) (writable f) (Utf8 []))))
      else Raise (permission_denied path)
  end.

(** [f.write(text)] on the file opened at [path], and its close. *)
Definition write (fs : filesystem) (path text : ustring) : filesystem :=
  match node_at fs path with
  | Some (Regular (File r w (Utf8 old))) =>
      set_node fs path (Regular (File r w (Utf8 (old ++ text))))
  | _ => fs
  end.

(** Size in bytes of the UTF-8 encoding of a text. *)
Definition utf8_width (c : N) : nat :=
  if c <? 128 then 1 else if c <? 2048 then 2 else if c <? 65536 then 3 else 4.

Definition utf8_size (text : ustring) : nat :=
  fold_right (fun c n => (utf8_width c + n)%nat) 0%nat text.

End Fs.

(** ** The JSON Writer and the JSON Reader *)

(** [try: body except Exception as e: handler]: every class of [exn_class]
    derives from [Exception]. *)
Definition try_except {A} (body : result A) (handler : exn -> result A)
  : result A :=
  match body with
  | Ok a => Ok a
  | Raise e => handler e
  end.

(** The [try] of [write_json] opens the file, dumps and builds the message;
    its [except Exception] turns what [open] raises into the error text.
    [json.dump] and [json.dumps] raise on no [value]. *)
Definition write_json (fs : Fs.filesystem) (data : value) (filepath : ustring)
  : Fs.filesystem * result ustring :=
  match Fs.open_w fs filepath with
  | Ok fs1 =>
      let fs2 := Fs.write fs1 filepath (Json.dumps false (Some 2) data) in
      (fs2,
       Ok (u "Successfully wrote JSON data to '" ++ filepath ++ u "' ("
             ++ nat_repr (length (Json.dumps true None data))
             ++ u " characters)."))
  | Raise e => (fs, Ok (u "Error writing JSON: " ++ exn_str e))
  end.

(** The body of the [try] of [read_json]. *)
Definition read_json_try (fs : Fs.filesystem) (filepath : ustring)
  : result ustring :=
  f <- Fs.open_r fs filepath ;;
  text <- Fs.read f ;;
  data <- Json.loads text ;;
  Ok (Json.dumps true (Some 2) data).

(** [except FileNotFoundError], [except json.JSONDecodeError] and
    [except Exception], in this order. *)
Definition read_json (fs : Fs.filesystem) (filepath : ustring)
  : result ustring :=
  try_except (read_json_try fs filepath)
    (fun e =>
       match exn_cls e with
       | FileNotFoundError =>
           Ok (u "Error: File '" ++ filepath ++ u "' not found.")
       | JSONDecodeError =>
           Ok (u "Error: Invalid JSON in file: " ++ exn_str e)
       | _ => Ok (u "Error reading JSON: " ++ exn_str e)
       end).

(** ** The agent and the conversation loop *)

Inductive message :=
| HumanMessage (content : ustring)
| AIMessage (content : ustring)
| ToolMessage (content : ustring).

Definition content (m : message) : ustring :=
  match m with
  | HumanMessage c | AIMessage c | ToolMessage c => c
  end.

(** [str.isspace] of a character: what [strip] removes. *)
Definition is_space (c : N) : bool :=
  ((9 <=? c) && (c <=? 13) || (28 <=? c) && (c <=? 32) || (c =? 133)
   || (c =? 160) || (c =? 5760) || (8192 <=? c) && (c <=? 8202)
   || (c =? 8232) || (c =? 8233) || (c =? 8239) || (c =? 8287)
   || (c =? 12288))%N.

Fixpoint lstrip (s : ustring) : ustring :=
  match s with
  | c :: s' => if is_space c then lstrip s' else s
  | [] => []
  end.

Definition rstrip (s : ustring) : ustring := rev (lstrip (rev s)).

Definition strip (s : ustring) : ustring := rstrip (lstrip s).

Definition sentinels : list ustring := [u "quit"; u "exit"; u "q"; u ""].

Definition farewell : ustring := u "Goodbye!".

Definition rule : ustring := repeat 45%N 100.

(** [print(x)] *)
Definition print (out x : ustring) : ustring := out ++ x ++ [10%N].

Section Conversation.

(** The lowercase mapping of the characters above [0x7f], from the Unicode
    tables of the interpreter. *)
Variable unicode_lower : N -> ustring.

(** [agent.invoke]: the messages of the final state, or the exception the
    agent runtime raises. *)
Variable invoke : list message -> result (list message).

Definition lower_char (c : N) : ustring :=
  if (65 <=? c)%N && (c <=? 90)%N then [(c + 32)%N]
  else if (c <? 128)%N then [c]
  else unicode_lower c.

Definition lower (s : ustring) : ustring := flat_map lower_char s.

Definition run_agent (user_input : ustring) (history : list message)
  : message :=
  match
    (messages <- invoke (history ++ [HumanMessage user_input]) ;;
     match rev messages with
     | m :: _ => Ok m
     | [] => Raise (Exn IndexError (u "list index out of range"))
     end)
  with
  | Ok m => m
  | Raise e =>
      AIMessage
        (u "Error: " ++ exn_str e ++ [10%N; 10%N]
           ++ u "Please try rephrasing your request or provide more specific details.")
  end.

(** One pass through the body of [while True]. *)
Inductive turn_result :=
| Break (out : ustring)
| Continue (history : list message) (out : ustring).

Definition turn (line : ustring) (history : list message) (out : ustring)
  : turn_result :=
  let user_input := strip line in
  let out := print (out ++ u "You: ") rule in
  if existsb (ustring_eqb (lower user_input)) sentinels
  then Break (print out farewell)
  else
    let out := out ++ u "Agent: " in
    let response := run_agent user_input history in
    let out := print out (content response) in
    let out := print out rule in
    Continue (history ++ [HumanMessage user_input; response]) out.

(** How the process ends: the loop was left by [break] and the script ran
    to its end, or [input] raised on the end of the input. *)
Inductive outcome :=
| Exited (history : list message) (out : ustring)
| Crashed (e : exn) (history : list message) (out : ustring).

Fixpoint conversation (lines : list ustring) (history : list message)
    (out : ustring) : outcome :=
  match lines with
  | [] => Crashed (Exn EOFError (u "EOF when reading a line")) history
            (out ++ u "You: ")
  | line :: lines' =>
      match turn line history out with
      | Break out' => Exited history out'
      | Continue history' out' => conversation lines' history' out'
      end
  end.

End Conversation.

(** ** The vocabulary of the specification *)

(** A FieldSet as the synthesizer accepts it: at least one field, every
    name a string, every column a non-empty list. *)
Definition is_field (kv : key * value) : Prop :=
  (exists f, fst kv = KStr f) /\ (exists x l, snd kv = VList (x :: l)).

Definition field_set (d : dict) : Prop :=
  d <> [] /\ dict_wf d /\ Forall is_field d.

(** [n] is the least of the column lengths of [d]. *)
Definition min_length (n : nat) (d : dict) : Prop :=
  (exists k l, In (k, VList l) d /\ n = length l) /\
  (forall k l, In (k, VList l) d -> n <= length l).

(** Row [i] of a FieldSet. *)
Definition row_at (i : nat) (d : dict) : dict :=
  map (fun kv =>
         (fst kv, match snd kv with VList l => nth i l VNone | _ => VNone end))
    d.

Definition column_length (kv : key * value) : nat :=
  match snd kv with VList l => length l | _ => 0 end.

(** The example of the specification: columns of lengths 3 and 2. *)
Definition mismatched_fields : dict :=
  [(KStr (u "a"), VList [VInt 1; VInt 2; VInt 3]);
   (KStr (u "b"), VList [VInt 4; VInt 5])].

Definition mismatched_records : list dict :=
  [[(KStr (u "a"), VInt 1); (KStr (u "b"), VInt 4)];
   [(KStr (u "a"), VInt 2); (KStr (u "b"), VInt 5)]].

(** A text that UTF-8 can encode: Unicode scalar values, no surrogate. *)
Definition is_scalar_value (c : N) : bool :=
  ((c <? 55296) || ((57343 <? c) && (c <? 1114112)))%N.

Definition scalar_text (s : ustring) : bool := forallb is_scalar_value s.

Definition is_text_key (k : key) : bool :=
  match k with KStr f => scalar_text f | _ => false end.

(** The boolean form of [dict_wf] on the keys. *)
Fixpoint distinct_keys (ks : list key) : bool :=
  match ks with
  | [] => true
  | k :: ks' => negb (existsb (key_eqb k) ks') && distinct_keys ks'
  end.

(** A JSON-safe scalar: null, a boolean, an integer or a string. *)
Definition json_scalar (v : value) : bool :=
  match v with
  | VNone | VBool _ | VInt _ => true
  | VStr s => scalar_text s
  | _ => false
  end.

(** A flat record and a RecordSet. *)
Definition flat_record (r : dict) : bool :=
  distinct_keys (map fst r)
  && forallb (fun kv => is_text_key (fst kv) && json_scalar (snd kv)) r.

Definition record_set (records : list dict) : bool :=
  forallb flat_record records.

Definition records_value (records : list dict) : value :=
  VList (map VDict records).

(** The values, nested ones too, made of such scalars under string keys. *)
Fixpoint json_safe (v : value) : bool :=
  match v with
  | VNone | VBool _ | VInt _ => true
  | VFloat _ => false
  | VStr s => scalar_text s
  | VList l => forallb json_safe l
  | VDict d =>
      distinct_keys (map fst d)
      && forallb (fun kv => is_text_key (fst kv) && json_safe (snd kv)) d
  end.

Definition safe_member (kv : key * value) : bool :=
  is_text_key (fst kv) && json_safe (snd kv).

(** The file systems and the records of the examples. *)
Definition empty_fs : Fs.filesystem :=
  Fs.Filesystem (fun _ => None) (fun _ => None).

Definition alice_bob : list dict :=
  [[(KStr (u "name"), VStr (u "Alice")); (KStr (u "age"), VInt 28)];
   [(KStr (u "name"), VStr (u "Bob")); (KStr (u "age"), VInt 34)]].

(** A readable file that holds the text [{invalid]. *)
Definition invalid_fs : Fs.filesystem :=
  Fs.set_node empty_fs (u "bad.json")
    (Fs.Regular (Fs.File true true (Fs.Utf8 (u "{invalid")))).

(** A file its owner may write but not read. *)
Definition write_only_fs : Fs.filesystem :=
  Fs.set_node empty_fs (u "out.json")
    (Fs.Regular (Fs.File false true (Fs.Utf8 (u "")))).

(** An agent that answers every request with the same message, and a
    lowercase table that leaves the characters above [0x7f] as they are. *)
Definition greeting_agent (messages : list message)
  : result (list message) :=
  Ok (messages ++ [AIMessage (u "Hi!")]).

Definition identity_lower (c : N) : ustring := [c].

(** The three error texts of [read_json]. *)
Definition not_found_text (filepath : ustring) : ustring :=
  u "Error: File '" ++ filepath ++ u "' not found.".
Definition invalid_json_text (parser_message : ustring) : ustring :=
  u "Error: Invalid JSON in file: " ++ parser_message.
Definition read_error_text (message : ustring) : ustring :=
  u "Error reading JSON: " ++ message.

(** The success text of [write_json] for a character count. *)
Definition success_text (filepath : ustring) (count : nat) : ustring :=
  u "Successfully wrote JSON data to '" ++ filepath ++ u "' ("
    ++ nat_repr count ++ u " characters).".

(** ** The conversation as a whole *)

(** The sentinel test of the loop, on a line as [input] returns it. *)
Definition ends_loop (unicode_lower : N -> ustring) (line : ustring) : bool :=
  existsb (ustring_eqb (lower unicode_lower (strip line))) sentinels.

(** The lines that reach the agent: those before the first one that ends
    the loop. *)
Fixpoint forwarded (unicode_lower : N -> ustring) (lines : list ustring)
  : list ustring :=
  match lines with
  | [] => []
  | line :: lines' =>
      if ends_loop unicode_lower line then []
      else line :: forwarded unicode_lower lines'
  end.

(** The answers to the lines [inputs], each one given on the history that
    the lines before it have left. *)
Fixpoint replies (invoke : list message -> result (list message))
    (inputs : list ustring) (history : list message) : list message :=
  match inputs with
  | [] => []
  | line :: inputs' =>
      let response := run_agent invoke (strip line) history in
      response
        :: replies invoke inputs'
             (history ++ [HumanMessage (strip line); response])
  end.

(** What a forwarded line and its answer add to the history. *)
Definition exchange (turn : ustring * message) : list message :=
  [HumanMessage (strip (fst turn)); snd turn].

Definition final_history (o : outcome) : list message :=
  match o with
  | Exited history _ | Crashed _ history _ => history
  end.

Definition final_output (o : outcome) : ustring :=
  match o with
  | Exited _ out | Crashed _ _ out => out
  end.

(** The text of the reply that [run_agent] builds from an exception. *)
Definition agent_error_text (message : ustring) : ustring :=
  u "Error: " ++ message ++ [10%N; 10%N]
    ++ u "Please try rephrasing your request or provide more specific details.".

(** An agent runtime that fails on every request. *)
Definition failing_agent (messages : list message) : result (list message) :=
  Raise (Exn ValueError (u "rate limit")).

(** A text that is not empty and neither starts nor ends with white space. *)
Definition trimmed (s : ustring) : bool :=
  match s, rev s with
  | c :: _, d :: _ => negb (is_space c) && negb (is_space d)
  | _, _ => false
  end.

(** ** More vocabulary for the tools *)

(** The columns of a FieldSet cut to their first [n] values. *)
Definition truncate_columns (n : nat) (d : dict) : dict :=
  map (fun kv =>
         (fst kv, match snd kv with VList l => VList (firstn n l) | v => v end))
    d.

(** Field names that UTF-8 can encode over columns of JSON-safe scalars. *)
Definition scalar_columns (d : dict) : bool :=
  forallb (fun kv =>
             is_text_key (fst kv)
             && match snd kv with
                | VList l => forallb json_scalar l
                | _ => false
                end)
    d.

(** A path that [open] takes for writing and, after that, for reading: a
    file that can be created, or one its owner may read and write. *)
Definition usable (fs : Fs.filesystem) (path : ustring) : bool :=
  match Fs.node_at fs path with
  | None => match Fs.create_error fs path with None => true | Some _ => false end
  | Some (Fs.Regular f) => Fs.readable f && Fs.writable f
  | Some Fs.Directory => false
  end.

(** [open(path, "w")] succeeds. *)
Definition can_write (fs : Fs.filesystem) (path : ustring) : bool :=
  match Fs.node_at fs path with
  | None => match Fs.create_error fs path with None => true | Some _ => false end
  | Some (Fs.Regular f) => Fs.writable f
  | Some Fs.Directory => false
  end.

(** The error text of [write_json]. *)
Definition write_error_text (message : ustring) : ustring :=
  u "Error writing JSON: " ++ message.

(** A text of ASCII characters only. *)
Definition is_ascii (s : ustring) : bool := forallb (fun c => (c <? 128)%N) s.

(** A text of JSON white space only. *)
Definition blank (s : ustring) : bool := forallb Json.is_ws s.

(** A file system with a readable file that holds [text] at [path]. *)
Definition with_file (fs : Fs.filesystem) (path text : ustring)
  : Fs.filesystem :=
  Fs.set_node fs path (Fs.Regular (Fs.File true true (Fs.Utf8 text))).

Definition ada : list dict := [[(KStr (u "name"), VStr (u "Ada"))]].

(** ** The script from its first line *)

(** What the script prints before the loop. *)
Definition banner : ustring :=
  let out := print [] (repeat 61%N 100) in
  let out := print out (u "DataGen Agent - Sample Data Generator") in
  let out := print out (repeat 61%N 100) in
  let out := print out (u "Generate sample data and save to JSON files.") in
  let out := print out [] in
  let out := print out (u "Examples:") in
  let out :=
    print out (u "  - Generate 5 sample users with fields: name, age, city.") in
  let out :=
    print out
      (u "  - Make a dataset of 3 products with name, price, and category. Then save it to products.json.") in
  let out :=
    print out
      (u "  - Make 10 sample employees with fields: name, department, and salary. Salary should be between 4000 and 8000.") in
  let out :=
    print out
      (u "  - Create data with fields: first_names [Alice, Bob], last_names [Stone, Diaz], ages [22, 30]. Show the table.") in
  let out :=
    print out
      (u "  - Read the contents of users.json and display the data in a table.") in
  let out := print out [] in
  let out := print out (u "Commands: 'quit' or 'exit' to end") in
  print out (repeat 61%N 100).

(** The block under [if __name__ == "__main__"], on the lines that the
    standard input holds. *)
Definition main (unicode_lower : N -> ustring)
    (invoke : list message -> result (list message)) (lines : list ustring)
  : outcome :=
  conversation unicode_lower invoke lines [] banner.

(** What the loop prints for a forwarded line and its answer. *)
Definition shown (turn : ustring * message) : ustring :=
  u "You: " ++ rule ++ [10%N] ++ u "Agent: " ++ content (snd turn) ++ [10%N]
    ++ rule ++ [10%N].

(** What it prints last: the farewell after a sentinel, or the prompt that
    no line answers. *)
Definition closing (ended : bool) : ustring :=
  if ended then u "You: " ++ rule ++ [10%N] ++ farewell ++ [10%N]
  else u "You: ".

(** A file system whose only entry is the directory [out]. *)
Definition directory_fs : Fs.filesystem :=
  Fs.set_node empty_fs (u "out") Fs.Directory.

(** * Properties *)

(** ** Dictionaries *)

Lemma ustring_eqb_eq s t : ustring_eqb s t = true <-> s = t.
Proof.
  unfold ustring_eqb. destruct (list_eq_dec N.eq_dec s t); split; congruence.
Qed.

Lemma ustring_eqb_refl s : ustring_eqb s s = true.
Proof. now apply ustring_eqb_eq. Qed.

Lemma key_eqb_sym a b : key_eqb a b = key_eqb b a.
Proof.
  destruct a, b; simpl; auto.
  - now destruct b, b0.
  - apply Z.eqb_sym.
  - unfold ustring_eqb.
    destruct (list_eq_dec N.eq_dec s s0), (list_eq_dec N.eq_dec s0 s);
      congruence.
Qed.

Lemma key_eqb_str s t : key_eqb (KStr s) (KStr t) = true <-> s = t.
Proof. simpl. apply ustring_eqb_eq. Qed.

Lemma dict_get_app_none d1 d2 k :
  dict_get d1 k = None -> dict_get (d1 ++ d2) k = dict_get d2 k.
Proof.
  induction d1 as [|[k' v] d1 IH]; simpl; auto.
  destruct (key_eqb k k'); [discriminate | auto].
Qed.

Lemma dict_setitem_fresh d k v :
  dict_get d k = None -> dict_setitem d k v = d ++ [(k, v)].
Proof.
  induction d as [|[k' v'] d IH]; simpl; auto.
  destruct (key_eqb k k'); [discriminate |].
  intros H. now rewrite IH.
Qed.

Lemma dict_get_none_in d k :
  dict_get d k = None -> forall k' v, In (k', v) d -> key_eqb k k' = false.
Proof.
  induction d as [|[k0 v0] d IH]; simpl; [tauto |].
  destruct (key_eqb k k0) eqn:E; [discriminate |].
  intros H k' v [Heq | Hin].
  - now inversion Heq; subst.
  - eauto.
Qed.

(** In a well-formed dictionary an item is found under its key. *)
Lemma dict_get_in d k v : dict_wf d -> In (k, v) d -> dict_get d k = Some v.
Proof.
  induction d as [|[k0 v0] d IH]; simpl; [tauto |].
  intros [Hnone Hwf] [Heq | Hin].
  - inversion Heq; subst.
    assert (key_eqb k k = true) as ->; auto.
    destruct k as [| b | z | s]; simpl;
      auto using Bool.eqb_reflx, Z.eqb_refl, ustring_eqb_refl.
  - rewrite key_eqb_sym, (dict_get_none_in _ _ Hnone _ _ Hin). auto.
Qed.

(** ** [generate_sample_data] *)

Lemma record_at_rows i its : forall acc,
  Forall (fun kv => exists l, snd kv = VList l /\ i < length l) its ->
  dict_wf its ->
  (forall k v, In (k, v) its -> dict_get acc k = None) ->
  record_at i its acc = Ok (acc ++ row_at i its).
Proof.
  induction its as [|[k v] its IH]; simpl; intros acc Hidx Hwf Hfresh.
  - now rewrite app_nil_r.
  - inversion Hidx as [|? ? [l [Hv Hi]] Hidx']; subst. simpl in Hv; subst v.
    destruct Hwf as [Hnone Hwf]. simpl.
    destruct (nth_error l i) as [x|] eqn:Hnth.
    2:{ apply nth_error_None in Hnth. lia. }
    simpl. rewrite dict_setitem_fresh by (apply (Hfresh k (VList l)); auto).
    rewrite IH; auto.
    + rewrite <- app_assoc. simpl.
      now erewrite nth_error_nth by eassumption.
    + intros k' v' Hin.
      rewrite dict_get_app_none by (apply (Hfresh k' v'); auto).
      simpl. rewrite key_eqb_sym, (dict_get_none_in _ _ Hnone _ _ Hin). auto.
Qed.

Lemma append_records_rows d : forall idxs data,
  dict_wf d ->
  (forall i, In i idxs ->
     Forall (fun kv => exists l, snd kv = VList l /\ i < length l) d) ->
  append_records d idxs data
  = Ok (data ++ map (fun i => VDict (row_at i d)) idxs).
Proof.
  induction idxs as [|i idxs IH]; simpl; intros data Hwf Hidx.
  - now rewrite app_nil_r.
  - rewrite (record_at_rows i d []); auto.
    simpl. rewrite IH; auto. now rewrite <- app_assoc.
Qed.

Lemma fold_left_min_le ns : forall n,
  fold_left Nat.min ns n <= n /\ Forall (le (fold_left Nat.min ns n)) ns.
Proof.
  induction ns as [|m ns IH]; simpl; intros n; [auto |].
  destruct (IH (Nat.min n m)) as [H1 H2]. split; [lia |].
  constructor; [lia | auto].
Qed.

Lemma fold_left_min_in ns : forall n,
  fold_left Nat.min ns n = n \/ In (fold_left Nat.min ns n) ns.
Proof.
  induction ns as [|m ns IH]; simpl; intros n; [auto |].
  destruct (IH (Nat.min n m)) as [H | H]; [| auto].
  rewrite H. destruct (Nat.min_dec n m) as [E | E]; rewrite E; auto.
Qed.

Lemma fields_pass_format d :
  Forall is_field d ->
  forallb (fun '(k, v) => isinstance_str k && isinstance_list v) d = true.
Proof.
  intros H. apply forallb_forall. intros [k v] Hin.
  rewrite Forall_forall in H. destruct (H _ Hin) as [[f Hk] [x [l Hv]]].
  simpl in *. now subst.
Qed.

Lemma fields_pass_nonempty d :
  Forall is_field d -> forallb truthy (values d) = true.
Proof.
  intros H. apply forallb_forall. intros v Hin.
  apply in_map_iff in Hin. destruct Hin as [[k v'] [<- Hin]].
  rewrite Forall_forall in H. destruct (H _ Hin) as [_ [x [l Hv]]].
  simpl in *. now subst.
Qed.

Lemma fields_lengths d :
  Forall is_field d -> mapM py_len (values d) = Ok (map column_length d).
Proof.
  unfold values, column_length.
  induction 1 as [|[k v] d [_ [x [l Hv]]] _ IH]; simpl; auto.
  simpl in Hv. subst v. simpl. now rewrite IH.
Qed.

(** The least column length exists and is what [min] computes. *)
Lemma fields_min d :
  d <> [] -> Forall is_field d ->
  exists n, py_min (map column_length d) = Ok n /\ min_length n d /\
            Forall (fun kv => n <= column_length kv) d.
Proof.
  intros Hne Hf. destruct d as [|[k v] d]; [congruence |].
  inversion Hf as [|? ? [_ [x [l Hv]]] Hf']; subst. simpl in Hv. subst v.
  simpl. set (n := fold_left Nat.min (map column_length d) (length (x :: l))).
  destruct (fold_left_min_le (map column_length d) (length (x :: l)))
    as [Hle Hall]. fold n in Hle, Hall.
  assert (Hall' : Forall (fun kv => n <= column_length kv)
                    ((k, VList (x :: l)) :: d)).
  { constructor; [exact Hle |].
    rewrite Forall_forall in *. intros kv Hin. apply Hall.
    now apply in_map. }
  exists n. repeat split; auto.
  - destruct (fold_left_min_in (map column_length d) (length (x :: l)))
      as [H | H]; fold n in H.
    + exists k, (x :: l). split; [now left | auto].
    + apply in_map_iff in H. destruct H as [[k' v'] [Hlen Hin]].
      rewrite Forall_forall in Hf'.
      destruct (Hf' _ Hin) as [_ [x' [l' Hv']]]. simpl in Hv'. subst v'.
      exists k', (x' :: l'). split; [now right | now rewrite <- Hlen].
  - intros k' l' Hin. rewrite Forall_forall in Hall'.
    apply (Hall' _ Hin).
Qed.

Lemma fields_indexable d n i :
  Forall is_field d -> Forall (fun kv => n <= column_length kv) d -> i < n ->
  Forall (fun kv => exists l, snd kv = VList l /\ i < length l) d.
Proof.
  intros Hf Hn Hi. rewrite Forall_forall in *. intros kv Hin.
  destruct (Hf _ Hin) as [_ [x [l Hv]]]. exists (x :: l). split; auto.
  specialize (Hn _ Hin). unfold column_length in Hn. rewrite Hv in Hn. lia.
Qed.

(** A FieldSet yields one row per index below the least column length. *)
Lemma generate_sample_data_rows d :
  field_set d ->
  exists n, min_length n d /\
    generate_sample_data d
    = Ok (data_result (map (fun i => VDict (row_at i d)) (seq 0 n))).
Proof.
  intros (Hne & Hwf & Hf). unfold generate_sample_data.
  rewrite fields_pass_format, fields_pass_nonempty by assumption. simpl.
  rewrite fields_lengths by assumption. simpl.
  destruct (fields_min d Hne Hf) as (n & Hmin & Hn & Hall).
  rewrite Hmin. simpl. exists n. split; auto.
  rewrite append_records_rows; auto.
  intros i Hin. apply in_seq in Hin.
  apply (fields_indexable d n i Hf Hall). lia.
Qed.

Lemma keys_row_at i d : keys (row_at i d) = keys d.
Proof. unfold keys, row_at. rewrite map_map. now apply map_ext. Qed.

Lemma dict_get_row_none i d k :
  dict_get d k = None -> dict_get (row_at i d) k = None.
Proof.
  induction d as [|[k' v] d IH]; simpl; auto.
  destruct (key_eqb k k'); [discriminate | auto].
Qed.

Lemma dict_wf_row_at i d : dict_wf d -> dict_wf (row_at i d).
Proof.
  induction d as [|[k v] d IH]; simpl; auto.
  intros [Hnone Hwf]. split; auto using dict_get_row_none.
Qed.

Lemma row_at_field i d k l :
  dict_wf d -> In (k, VList l) d -> i < length l ->
  dict_get (row_at i d) k = nth_error l i.
Proof.
  intros Hwf Hin Hi.
  rewrite (@dict_get_in (row_at i d) k (nth i l VNone)).
  - symmetry. now apply nth_error_nth'.
  - now apply dict_wf_row_at.
  - unfold row_at. apply in_map_iff. now exists (k, VList l).
Qed.


Lemma mismatched_fields_ok : field_set mismatched_fields.
Proof.
  unfold field_set, mismatched_fields. split; [discriminate |].
  split; [simpl; auto |].
  repeat constructor; simpl; eauto.
Qed.


Lemma error_is_not_data msg data : error_result msg <> data_result data.
Proof. unfold error_result, data_result. intros H. inversion H. Qed.

(** C5: when every key is a string and every value a list, and some list
    is empty, the result is the validation error "All lists in data_fields
    must be non-empty." and no record is produced. *)
Theorem generate_sample_data_empty_column (d : dict) :
  Forall (fun kv => isinstance_str (fst kv) = true /\
                    isinstance_list (snd kv) = true) d ->
  (exists k, In (k, VList []) d) ->
  generate_sample_data d = Ok (error_result empty_list_msg) /\
  forall data, generate_sample_data d <> Ok (data_result data).
Proof.
  intros Hfmt [k Hin].
  assert (H : generate_sample_data d = Ok (error_result empty_list_msg)).
  { unfold generate_sample_data.
    assert (forallb (fun '(k, v) => isinstance_str k && isinstance_list v) d
            = true) as ->.
    { apply forallb_forall. intros [k' v'] Hin'.
      rewrite Forall_forall in Hfmt. destruct (Hfmt _ Hin') as [H1 H2].
      simpl in *. now rewrite H1, H2. }
    assert (forallb truthy (values d) = false) as ->; [| reflexivity].
    apply not_true_is_false. intros Hall.
    rewrite forallb_forall in Hall.
    specialize (Hall (VList [])). simpl in Hall.
    assert (false = true); [| discriminate].
    apply Hall. unfold values. apply in_map_iff. now exists (k, VList []). }
  split; [exact H |].
  intros data. rewrite H. intros Heq.
  apply (@error_is_not_data empty_list_msg data). congruence.
Qed.

Lemma generate_sample_data_empty_column_witness :
  generate_sample_data
    [(KStr (u "a"), VList [VInt 1]); (KStr (u "b"), VList [])]
  = Ok (error_result empty_list_msg).
Proof.
  refine (proj1 (@generate_sample_data_empty_column
                   [(KStr (u "a"), VList [VInt 1]); (KStr (u "b"), VList [])]
                   _ _)).
  - repeat constructor.
  - exists (KStr (u "b")). simpl. auto.
Defined.

(** C6: when some key is not a string or some value is not a list, the
    result is the error that starts "Invalid input format." and no record is
    produced. *)
Theorem generate_sample_data_invalid_format (d : dict) :
  Exists (fun kv => isinstance_str (fst kv) = false \/
                    isinstance_list (snd kv) = false) d ->
  generate_sample_data d = Ok (error_result invalid_format_msg) /\
  firstn 21 invalid_format_msg = u "Invalid input format." /\
  forall data, generate_sample_data d <> Ok (data_result data).
Proof.
  intros Hbad.
  assert (H : generate_sample_data d = Ok (error_result invalid_format_msg)).
  { unfold generate_sample_data.
    assert (forallb (fun '(k, v) => isinstance_str k && isinstance_list v) d
            = false) as ->; [| reflexivity].
    apply not_true_is_false. intros Hall. rewrite forallb_forall in Hall.
    apply Exists_exists in Hbad. destruct Hbad as [[k v] [Hin Hkv]].
    specialize (Hall _ Hin). simpl in *.
    apply andb_prop in Hall. destruct Hall, Hkv; congruence. }
  split; [exact H |]. split; [reflexivity |].
  intros data. rewrite H. intros Heq.
  apply (@error_is_not_data invalid_format_msg data). congruence.
Qed.

Lemma generate_sample_data_invalid_format_witness :
  generate_sample_data [(KInt 1, VList [VInt 1]); (KStr (u "b"), VInt 2)]
  = Ok (error_result invalid_format_msg).
Proof.
  refine (proj1 (@generate_sample_data_invalid_format
                   [(KInt 1, VList [VInt 1]); (KStr (u "b"), VInt 2)] _)).
  constructor. simpl. auto.
Defined.

(** C9: on the dictionary with no field both validation checks pass, [min]
    is given no length and raises ValueError, and the call returns neither
    data nor an error value. *)
Theorem generate_sample_data_empty_dict :
  forallb (fun '(k, v) => isinstance_str k && isinstance_list v) [] = true /\
  forallb truthy (values []) = true /\
  mapM py_len (values []) = Ok [] /\
  (exists msg, py_min [] = Raise (Exn ValueError msg)) /\
  (exists msg, generate_sample_data [] = Raise (Exn ValueError msg)) /\
  forall v, generate_sample_data [] <> Ok v.
Proof.
  repeat split; try reflexivity.
  - eexists. reflexivity.
  - eexists. reflexivity.
  - intros v. discriminate.
Qed.

(** A dictionary that passes both checks is made of fields. *)
Lemma checks_pass_fields d :
  forallb (fun '(k, v) => isinstance_str k && isinstance_list v) d = true ->
  forallb truthy (values d) = true ->
  Forall is_field d.
Proof.
  intros H1 H2. rewrite forallb_forall in H1, H2.
  apply Forall_forall. intros [k v] Hin.
  specialize (H1 _ Hin). simpl in H1. apply andb_prop in H1.
  destruct H1 as [Hk Hv].
  assert (Ht : truthy v = true).
  { apply H2. unfold values. apply in_map_iff. now exists (k, v). }
  destruct k; try discriminate. destruct v as [| | | | | [|x l] |];
    try discriminate.
  split; simpl; eauto.
Qed.

Lemma record_at_total i its : forall acc,
  Forall (fun kv => exists l, snd kv = VList l /\ i < length l) its ->
  exists r, record_at i its acc = Ok r.
Proof.
  induction its as [|[k v] its IH]; simpl; intros acc Hidx; [eauto |].
  inversion Hidx as [|? ? [l [Hv Hi]] Hidx']; subst. simpl in Hv. subst v.
  simpl. destruct (nth_error l i) as [x|] eqn:Hnth.
  - simpl. auto.
  - apply nth_error_None in Hnth. lia.
Qed.

Lemma append_records_total d : forall idxs data,
  (forall i, In i idxs ->
     Forall (fun kv => exists l, snd kv = VList l /\ i < length l) d) ->
  exists rs, append_records d idxs data = Ok rs.
Proof.
  induction idxs as [|i idxs IH]; simpl; intros data Hidx; [eauto |].
  destruct (record_at_total i d []) as [r ->]; auto.
  simpl. auto.
Qed.

(** [generate_sample_data] returns on every dictionary but the empty one. *)
Lemma generate_sample_data_total d :
  d <> [] -> exists v, generate_sample_data d = Ok v.
Proof.
  intros Hne. unfold generate_sample_data.
  destruct (forallb _ d) eqn:H1; simpl; [| eauto].
  destruct (forallb truthy (values d)) eqn:H2; simpl; [| eauto].
  assert (Hf := checks_pass_fields _ H1 H2).
  rewrite fields_lengths by assumption. simpl.
  destruct (fields_min d Hne Hf) as (n & Hmin & Hn & Hall).
  rewrite Hmin. simpl.
  destruct (append_records_total d (seq 0 n) []) as [rs ->]; simpl; eauto.
  intros i Hin. apply in_seq in Hin.
  apply (fields_indexable d n i Hf Hall). lia.
Qed.

(** ** The conversation loop *)

Lemma existsb_ustring_in x l : existsb (ustring_eqb x) l = true <-> In x l.
Proof.
  rewrite existsb_exists. split.
  - intros (y & Hin & Heq). apply ustring_eqb_eq in Heq. now subst.
  - intros Hin. exists x. split; [exact Hin | apply ustring_eqb_refl].
Qed.

Section Turn.

Variable unicode_lower : N -> ustring.
Variable invoke : list message -> result (list message).

Lemma turn_break line h out :
  In (lower unicode_lower (strip line)) sentinels ->
  turn unicode_lower invoke line h out
  = Break (print (print (out ++ u "You: ") rule) farewell).
Proof.
  intros Hin. apply existsb_ustring_in in Hin.
  unfold turn. now rewrite Hin.
Qed.

Lemma turn_continue line h out :
  ~ In (lower unicode_lower (strip line)) sentinels ->
  turn unicode_lower invoke line h out
  = Continue
      (h ++ [HumanMessage (strip line); run_agent invoke (strip line) h])
      (print
         (print (print (out ++ u "You: ") rule ++ u "Agent: ")
            (content (run_agent invoke (strip line) h)))
         rule).
Proof.
  intros Hin. unfold turn.
  destruct (existsb (ustring_eqb (lower unicode_lower (strip line)))
              sentinels) eqn:E.
  - apply existsb_ustring_in in E. contradiction.
  - reflexivity.
Qed.

Lemma sentinel_dec s : {In s sentinels} + {~ In s sentinels}.
Proof. apply in_dec, (list_eq_dec N.eq_dec). Qed.

Lemma turn_break_iff line h out :
  (exists out', turn unicode_lower invoke line h out = Break out') <->
  In (lower unicode_lower (strip line)) sentinels.
Proof.
  split.
  - intros [out' H].
    destruct (sentinel_dec (lower unicode_lower (strip line))); auto.
    rewrite turn_continue in H by assumption. discriminate.
  - intros H. eexists. now apply turn_break.
Qed.

Lemma lstrip_spaces line :
  Forall (fun c => is_space c = true) line -> lstrip line = [].
Proof.
  induction 1 as [|c line Hc _ IH]; simpl; auto. now rewrite Hc.
Qed.

Lemma strip_spaces line :
  Forall (fun c => is_space c = true) line -> strip line = [].
Proof. intros H. unfold strip. now rewrite lstrip_spaces. Qed.

End Turn.

(** C8, as stated, fails: the line "Exit" ends the loop with the farewell
    although it is none of the four sentinels. *)
Lemma turn_break_on_capitalised_exit :
  ~ In (u "Exit") sentinels /\
  forall unicode_lower invoke history out,
    turn unicode_lower invoke (u "Exit") history out
    = Break (print (print (out ++ u "You: ") rule) farewell).
Proof.
  split.
  - intros H. simpl in H. intuition discriminate.
  - intros ul inv h out. now apply turn_break; vm_compute; auto.
Qed.

(** C8, amended: a line ends the loop with the farewell message, the
    script then running to its normal end, exactly when the line stripped of
    surrounding whitespace and lowercased is 'quit', 'exit', 'q' or empty;
    every other line is forwarded, stripped, to the agent with the history,
    both turns are appended to the history and the loop goes on. *)
Theorem turn_ends_on_normalised_sentinel
    (unicode_lower : N -> ustring)
    (invoke : list message -> result (list message))
    (line : ustring) (history : list message) (out : ustring) :
  let user_input := strip line in
  let response := run_agent invoke user_input history in
  let shown := print (out ++ u "You: ") rule in
  ((exists out', turn unicode_lower invoke line history out = Break out') <->
   In (lower unicode_lower user_input) sentinels) /\
  (In (lower unicode_lower user_input) sentinels ->
   turn unicode_lower invoke line history out = Break (print shown farewell)
   /\ forall rest,
        conversation unicode_lower invoke (line :: rest) history out
        = Exited history (print shown farewell)) /\
  (~ In (lower unicode_lower user_input) sentinels ->
   let history' := history ++ [HumanMessage user_input; response] in
   let out' := print (print (shown ++ u "Agent: ") (content response)) rule in
   turn unicode_lower invoke line history out = Continue history' out'
   /\ forall rest,
        conversation unicode_lower invoke (line :: rest) history out
        = conversation unicode_lower invoke rest history' out').
Proof.
  intros user_input response shown. split; [apply turn_break_iff |].
  split.
  - intros Hin. assert (H := turn_break unicode_lower invoke line history out Hin).
    split; [exact H |]. intros rest. simpl. now rewrite H.
  - intros Hin.
    assert (H := turn_continue unicode_lower invoke line history out Hin).
    split; [exact H |]. intros rest. simpl. now rewrite H.
Qed.

Lemma turn_ends_on_normalised_sentinel_witness :
  ~ In (lower identity_lower (strip (u " hello "))) sentinels /\
  turn identity_lower greeting_agent (u " hello ") [] (u "")
  = Continue [HumanMessage (u "hello"); AIMessage (u "Hi!")]
      (print (print (print (u "You: ") rule ++ u "Agent: ") (u "Hi!")) rule).
Proof.
  assert (Hnot : ~ In (lower identity_lower (strip (u " hello "))) sentinels).
  { vm_compute. intuition discriminate. }
  split; [exact Hnot |].
  destruct (turn_ends_on_normalised_sentinel identity_lower greeting_agent
              (u " hello ") [] (u "")) as (_ & _ & Hgo).
  exact (proj1 (Hgo Hnot)).
Defined.



(** ** [write_json] and [read_json] *)

Lemma set_node_same fs path n : Fs.node_at (Fs.set_node fs path n) path = Some n.
Proof. simpl. now rewrite ustring_eqb_refl. Qed.

(** A file that was opened for writing is there, empty. *)
Lemma open_w_node fs path fs1 :
  Fs.open_w fs path = Ok fs1 ->
  exists r, Fs.node_at fs1 path
            = Some (Fs.Regular (Fs.File r true (Fs.Utf8 []))) /\
            (r = false ->
             exists d, Fs.node_at fs path
                       = Some (Fs.Regular (Fs.File false true d))).
Proof.
  unfold Fs.open_w. intros H.
  destruct (Fs.node_at fs path) as [[[r w d] |] |] eqn:Hn.
  - simpl in H. destruct w; [| discriminate]. inversion H; subst.
    exists r. rewrite set_node_same. split; [reflexivity |].
    intros ->. eauto.
  - discriminate.
  - destruct (Fs.create_error fs path); [discriminate |]. inversion H; subst.
    exists true. rewrite set_node_same. split; [reflexivity | discriminate].
Qed.

Lemma write_json_ok fs data path fs1 :
  Fs.open_w fs path = Ok fs1 ->
  write_json fs data path
  = (Fs.write fs1 path (Json.dumps false (Some 2) data),
     Ok (success_text path (length (Json.dumps true None data)))).
Proof. intros H. unfold write_json. now rewrite H. Qed.

Lemma write_json_file fs data path fs1 :
  Fs.open_w fs path = Ok fs1 ->
  exists r, Fs.node_at (fst (write_json fs data path)) path
            = Some (Fs.Regular
                      (Fs.File r true (Fs.Utf8 (Json.dumps false (Some 2) data))))
            /\ (r = false ->
                exists d, Fs.node_at fs path
                          = Some (Fs.Regular (Fs.File false true d))).
Proof.
  intros H. erewrite write_json_ok by eassumption. simpl.
  destruct (open_w_node _ _ _ H) as (r & Hn & Hr). exists r.
  unfold Fs.write. rewrite Hn, set_node_same. auto.
Qed.



Lemma open_r_raises fs path e :
  Fs.open_r fs path = Raise e ->
  (Fs.node_at fs path = None /\ exn_cls e = FileNotFoundError) \/
  (Fs.node_at fs path <> None /\
   (exn_cls e = PermissionError \/ exn_cls e = IsADirectoryError)).
Proof.
  unfold Fs.open_r. destruct (Fs.node_at fs path) as [[f |] |].
  - destruct (Fs.readable f); [discriminate |]. intros H. inversion H.
    right. split; [discriminate | auto].
  - intros H. inversion H. right. split; [discriminate | auto].
  - intros H. inversion H. auto.
Qed.

Lemma read_raises f e : Fs.read f = Raise e -> exn_cls e = UnicodeDecodeError.
Proof.
  unfold Fs.read. destruct (Fs.data f); [discriminate |].
  intros H. now inversion H.
Qed.

(** C3, where it holds and where it fails: [write_json] and [read_json]
    return a text on every input, and [generate_sample_data] returns a value
    on every dictionary except the empty one, where it raises ValueError. *)
Theorem tools_return_except_on_empty_fields :
  (forall fs data path, exists s, snd (write_json fs data path) = Ok s) /\
  (forall fs path, exists s, read_json fs path = Ok s) /\
  (forall d, (exists v, generate_sample_data d = Ok v) <-> d <> []) /\
  exists msg, generate_sample_data [] = Raise (Exn ValueError msg).
Proof.
  repeat split.
  - intros fs data path. unfold write_json.
    destruct (Fs.open_w fs path); simpl; eauto.
  - intros fs path. unfold read_json.
    destruct (read_json_try fs path) as [s | e]; simpl; [eauto |].
    destruct (exn_cls e); eauto.
  - intros [v Hv] ->. discriminate.
  - apply generate_sample_data_total.
  - eexists. reflexivity.
Qed.

(** ** The [json] module: what is written is read back *)

Module JsonFacts.

Import Json Fs.
Local Open Scope N_scope.

Lemma scanstring_eq begin s acc :
  scanstring begin s acc =
  match s with
  | [] => Failed unterminated_msg begin
  | c :: s1 =>
      if c =? 34 then Scanned (rev acc) s1
      else if c =? 92 then
        match s1 with
        | [] => Failed unterminated_msg begin
        | e :: s2 =>
            if e =? 117 then
              match s2 with
              | h1 :: h2 :: h3 :: h4 :: ((_ :: _) as s3) =>
                  match hex4_value h1 h2 h3 h4 with
                  | None => Failed invalid_uXXXX_msg s1
                  | Some c1 =>
                      match s3 with
                      | b :: ((v :: g1 :: g2 :: g3 :: g4 :: ((_ :: _) as s4))
                              as s3') =>
                          if is_high_surrogate c1 && (b =? 92) && (v =? 117)
                          then
                            match hex4_value g1 g2 g3 g4 with
                            | None => Failed invalid_uXXXX_msg s3'
                            | Some c2 =>
                                if is_low_surrogate c2
                                then scanstring begin s4
                                       (join_surrogates c1 c2 :: acc)
                                else scanstring begin s3 (c1 :: acc)
                            end
                          else scanstring begin s3 (c1 :: acc)
                      | _ => scanstring begin s3 (c1 :: acc)
                      end
                  end
              | _ => Failed invalid_uXXXX_msg s1
              end
            else
              match backslash e with
              | Some c' => scanstring begin s2 (c' :: acc)
              | None => Failed invalid_escape_msg s
              end
        end
      else if c <=? 31 then Failed invalid_control_msg s
      else scanstring begin s1 (c :: acc)
  end.
Proof. destruct s; reflexivity. Qed.

Lemma scanstring_quote begin rest acc :
  scanstring begin (34 :: rest) acc = Scanned (rev acc) rest.
Proof. reflexivity. Qed.

Lemma scanstring_plain begin c tail acc :
  c <> 34 -> c <> 92 -> 32 <= c ->
  scanstring begin (c :: tail) acc = scanstring begin tail (c :: acc).
Proof.
  intros H1 H2 H3. rewrite scanstring_eq.
  apply N.eqb_neq in H1, H2. rewrite H1, H2.
  assert ((c <=? 31) = false) as -> by (apply N.leb_gt; lia).
  reflexivity.
Qed.

Lemma scanstring_short begin e c' tail acc :
  e <> 117 -> backslash e = Some c' ->
  scanstring begin (92 :: e :: tail) acc = scanstring begin tail (c' :: acc).
Proof.
  intros H1 H2. rewrite scanstring_eq.
  change (92 =? 34) with false. change (92 =? 92) with true. cbv iota.
  apply N.eqb_neq in H1. rewrite H1, H2. reflexivity.
Qed.

Lemma scanstring_u begin h1 h2 h3 h4 t0 tl acc c1 :
  hex4_value h1 h2 h3 h4 = Some c1 -> is_high_surrogate c1 = false ->
  scanstring begin (92 :: 117 :: h1 :: h2 :: h3 :: h4 :: t0 :: tl) acc
  = scanstring begin (t0 :: tl) (c1 :: acc).
Proof.
  intros H1 H2. rewrite scanstring_eq.
  change (92 =? 34) with false. change (92 =? 92) with true.
  change (117 =? 117) with true. cbv iota. rewrite H1.
  destruct tl as [|v [|g1 [|g2 [|g3 [|g4 [|c7 r]]]]]]; try reflexivity.
  now rewrite H2.
Qed.

Lemma scanstring_pair begin h1 h2 h3 h4 g1 g2 g3 g4 t0 tl acc c1 c2 :
  hex4_value h1 h2 h3 h4 = Some c1 -> is_high_surrogate c1 = true ->
  hex4_value g1 g2 g3 g4 = Some c2 -> is_low_surrogate c2 = true ->
  scanstring begin
    (92 :: 117 :: h1 :: h2 :: h3 :: h4 :: 92 :: 117 :: g1 :: g2 :: g3 :: g4
        :: t0 :: tl) acc
  = scanstring begin (t0 :: tl) (join_surrogates c1 c2 :: acc).
Proof.
  intros H1 H2 H3 H4. rewrite scanstring_eq.
  change (92 =? 34) with false. change (92 =? 92) with true.
  change (117 =? 117) with true. cbv iota. rewrite H1, H2, H3, H4.
  reflexivity.
Qed.

(** Hexadecimal digits *)

Lemma hexval_hex_digit d : d < 16 -> hexval (hex_digit d) = Some d.
Proof.
  intros H. unfold hexval, hex_digit, is_digit.
  destruct (N.ltb_spec d 10).
  - assert ((48 <=? 48 + d) = true) as -> by (apply N.leb_le; lia).
    assert ((48 + d <=? 57) = true) as -> by (apply N.leb_le; lia).
    cbn [andb]. f_equal. lia.
  - assert ((87 + d <=? 57) = false) as -> by (apply N.leb_gt; lia).
    rewrite andb_false_r.
    assert ((97 <=? 87 + d) = true) as -> by (apply N.leb_le; lia).
    assert ((87 + d <=? 102) = true) as -> by (apply N.leb_le; lia).
    cbn [andb]. f_equal. lia.
Qed.

Lemma hex_digits_value n :
  n < 65536 ->
  ((n / 4096 mod 16 * 16 + n / 256 mod 16) * 16 + n / 16 mod 16) * 16
  + n mod 16 = n.
Proof.
  intros H.
  assert (E1 : n / 256 = n / 16 / 16) by now rewrite N.Div0.div_div.
  assert (E2 : n / 4096 = n / 256 / 16) by now rewrite N.Div0.div_div.
  rewrite E2, E1.
  assert (H0 : n / 16 / 16 / 16 < 16).
  { rewrite !N.Div0.div_div. now apply N.Div0.div_lt_upper_bound. }
  rewrite (N.mod_small (n / 16 / 16 / 16)) by assumption.
  pose proof (N.div_mod' n 16) as D1.
  pose proof (N.div_mod' (n / 16) 16) as D2.
  pose proof (N.div_mod' (n / 16 / 16) 16) as D3.
  set (a := n / 16) in *. set (b := a / 16) in *. set (c := b / 16) in *.
  set (x := n mod 16) in *. set (y := a mod 16) in *.
  set (z := b mod 16) in *. clearbody a b c x y z. lia.
Qed.

Lemma hex4_value_hex4 n :
  n < 65536 ->
  hex4_value (hex_digit (n / 4096 mod 16)) (hex_digit (n / 256 mod 16))
    (hex_digit (n / 16 mod 16)) (hex_digit (n mod 16)) = Some n.
Proof.
  intros H. unfold hex4_value.
  rewrite !hexval_hex_digit by (apply N.mod_lt; discriminate).
  f_equal. now apply hex_digits_value.
Qed.

(** Surrogate pairs *)

Lemma lor_shiftl_low a y :
  y < 1024 -> N.lor (N.shiftl a 10) y = a * 1024 + y.
Proof.
  intros Hy.
  assert (Hland : N.land (N.shiftl a 10) y = 0).
  { apply N.bits_inj. intros m. rewrite N.land_spec, N.bits_0.
    destruct (N.lt_ge_cases m 10) as [Hm | Hm].
    - now rewrite N.shiftl_spec_low.
    - destruct (N.eq_dec y 0) as [-> | Hy0].
      + now rewrite N.bits_0, andb_false_r.
      + rewrite (N.bits_above_log2 y m), andb_false_r; auto.
        apply N.lt_le_trans with 10; auto.
        apply N.log2_lt_pow2; [lia | exact Hy]. }
  rewrite <- N.lxor_lor, <- N.add_nocarry_lxor by assumption.
  now rewrite N.shiftl_mul_pow2.
Qed.

Lemma surrogate_pair c :
  65536 <= c -> c < 1114112 ->
  let n := c - 65536 in
  let s1 := N.lor 55296 (N.land (N.shiftr n 10) 1023) in
  let s2 := N.lor 56320 (N.land n 1023) in
  s1 < 65536 /\ s2 < 65536 /\
  is_high_surrogate s1 = true /\ is_low_surrogate s2 = true /\
  join_surrogates s1 s2 = c.
Proof.
  intros H1 H2 n s1 s2.
  assert (Hn : n < 1048576) by (unfold n; lia).
  assert (B1 : n / 1024 < 1024) by now apply N.Div0.div_lt_upper_bound.
  assert (B2 : n mod 1024 < 1024) by (apply N.mod_lt; discriminate).
  pose proof (N.div_mod' n 1024) as D.
  assert (E1 : s1 = 55296 + n / 1024).
  { unfold s1. change 1023 with (N.ones 10).
    rewrite N.land_ones, N.shiftr_div_pow2.
    change (2 ^ 10) with 1024.
    rewrite N.mod_small by assumption.
    change 55296 with (N.shiftl 54 10) at 1.
    rewrite lor_shiftl_low by assumption. reflexivity. }
  assert (E2 : s2 = 56320 + n mod 1024).
  { unfold s2. change 1023 with (N.ones 10).
    rewrite N.land_ones. change (2 ^ 10) with 1024.
    change 56320 with (N.shiftl 55 10) at 1.
    rewrite lor_shiftl_low by assumption. reflexivity. }
  assert (J : join_surrogates s1 s2 = 65536 + (n / 1024 * 1024 + n mod 1024)).
  { unfold join_surrogates. rewrite E1, E2.
    rewrite (N.add_comm 55296), (N.add_comm 56320), !N.add_sub.
    now rewrite lor_shiftl_low by assumption. }
  assert (En : n = c - 65536) by reflexivity.
  rewrite J. clearbody s1 s2 n.
  set (q := n / 1024) in *. set (r := n mod 1024) in *. clearbody q r.
  unfold is_high_surrogate, is_low_surrogate.
  repeat split; try lia; apply andb_true_intro; split; apply N.leb_le; lia.
Qed.

(** Strings *)


Lemma scalar_not_high c :
  is_scalar_value c = true -> is_high_surrogate c = false.
Proof.
  unfold is_scalar_value, is_high_surrogate. intros H.
  apply orb_prop in H. apply andb_false_iff.
  destruct H as [H | H].
  - apply N.ltb_lt in H. left. apply N.leb_gt. lia.
  - apply andb_prop in H. destruct H as [H _]. apply N.ltb_lt in H.
    right. apply N.leb_gt. lia.
Qed.

Lemma scanstring_char ensure_ascii begin c t0 tl acc :
  is_scalar_value c = true ->
  scanstring begin (escape_char ensure_ascii c ++ t0 :: tl) acc
  = scanstring begin (t0 :: tl) (c :: acc).
Proof.
  intros Hc. unfold escape_char, escape_dct.
  destruct (N.eqb_spec c 92) as [-> | N92];
    [now apply scanstring_short |].
  destruct (N.eqb_spec c 34) as [-> | N34];
    [now apply scanstring_short |].
  destruct (N.eqb_spec c 8) as [-> | N8];
    [now apply scanstring_short |].
  destruct (N.eqb_spec c 12) as [-> | N12];
    [now apply scanstring_short |].
  destruct (N.eqb_spec c 10) as [-> | N10];
    [now apply scanstring_short |].
  destruct (N.eqb_spec c 13) as [-> | N13];
    [now apply scanstring_short |].
  destruct (N.eqb_spec c 9) as [-> | N9];
    [now apply scanstring_short |].
  destruct (N.ltb_spec c 32) as [L32 | G32].
  { unfold escape_u, hex4. cbn [app]. apply scanstring_u.
    - apply hex4_value_hex4. lia.
    - now apply scalar_not_high. }
  destruct (ensure_ascii && negb ((32 <=? c) && (c <=? 126))) eqn:E.
  - destruct (N.ltb_spec c 65536) as [L | G].
    + unfold escape_u, hex4. cbn [app]. apply scanstring_u.
      * now apply hex4_value_hex4.
      * now apply scalar_not_high.
    + assert (Hlt : c < 1114112).
      { unfold is_scalar_value in Hc. apply orb_prop in Hc.
        destruct Hc as [H | H].
        - apply N.ltb_lt in H. lia.
        - apply andb_prop in H. destruct H as [_ H]. now apply N.ltb_lt in H. }
      destruct (surrogate_pair c G Hlt) as (B1 & B2 & H1 & H2 & J).
      cbv zeta. unfold escape_u, hex4. cbn [app].
      etransitivity.
      * eapply scanstring_pair;
          [apply hex4_value_hex4, B1 | exact H1
          | apply hex4_value_hex4, B2 | exact H2].
      * now rewrite J.
  - cbn [app]. apply scanstring_plain; auto.
Qed.

Lemma scanstring_escaped ensure_ascii begin rest : forall s acc,
  scalar_text s = true ->
  scanstring begin (flat_map (escape_char ensure_ascii) s ++ 34 :: rest) acc
  = Scanned (rev acc ++ s) rest.
Proof.
  induction s as [|c s IH]; intros acc Hs.
  - simpl. now rewrite app_nil_r.
  - simpl in Hs. apply andb_prop in Hs. destruct Hs as [Hc Hs].
    cbn [flat_map]. rewrite <- List.app_assoc.
    assert (Et : exists t0 tl,
               flat_map (escape_char ensure_ascii) s ++ 34 :: rest = t0 :: tl).
    { destruct (flat_map (escape_char ensure_ascii) s); simpl; eauto. }
    destruct Et as (t0 & tl & Et).
    rewrite Et, scanstring_char, <- Et, IH by assumption.
    simpl. now rewrite <- List.app_assoc.
Qed.


(** Integers *)

Lemma uint_chars_digits d : forallb is_digit (uint_chars d) = true.
Proof. induction d; simpl; auto. Qed.

Lemma uint_of_digits_chars d : uint_of_digits (uint_chars d) = d.
Proof. induction d; simpl; unfold digit_uint; simpl; congruence. Qed.

Lemma span_digits_app ds rest :
  forallb is_digit ds = true ->
  match rest with c :: _ => is_digit c = false | [] => True end ->
  span_digits (ds ++ rest) = (ds, rest).
Proof.
  intros Hds Hrest. induction ds as [|c ds IH].
  - cbn [app]. destruct rest as [|c r]; [reflexivity |].
    cbn [span_digits]. now rewrite Hrest.
  - cbn [forallb] in Hds. apply andb_prop in Hds. destruct Hds as [Hc Hds].
    cbn [app span_digits]. now rewrite Hc, IH.
Qed.

Lemma to_uint_normal p :
  exists c ds, uint_chars (Pos.to_uint p) = c :: ds /\
               is_digit c = true /\ c <> 48.
Proof.
  assert (Hn : Pos.to_uint p = Decimal.unorm (Pos.to_uint p)).
  { change (Pos.to_uint p) with (N.to_uint (Npos p)).
    rewrite <- DecimalN.Unsigned.to_of at 1.
    now rewrite DecimalN.Unsigned.of_to. }
  pose proof (DecimalPos.Unsigned.to_uint_nonnil p) as Hnil.
  pose proof (DecimalPos.Unsigned.to_uint_nonzero p) as Hzero.
  destruct (Pos.to_uint p) as [| d | d | d | d | d | d | d | d | d | d];
    try congruence;
    try (simpl; do 2 eexists; split; [reflexivity | split; [reflexivity | discriminate]]).
  exfalso. rewrite DecimalFacts.unorm_D0 in Hn. unfold Decimal.unorm in Hn.
  destruct (Decimal.nzhead d) eqn:E; try discriminate.
  - inversion Hn; subst. now apply Hzero.
  - now apply DecimalFacts.nzhead_nonzero in E.
Qed.

Lemma delimited_not_digit rest :
  delimited rest = true ->
  match rest with c :: _ => is_digit c = false | [] => True end.
Proof.
  destruct rest as [|c r]; simpl; auto. intros H.
  repeat (apply orb_prop in H; destruct H as [H | H]);
    apply N.eqb_eq in H; now subst.
Qed.

Lemma match_frac_delimited rest :
  delimited rest = true -> match_frac rest = ([], rest).
Proof.
  destruct rest as [|c r]; simpl; auto. intros H.
  repeat (apply orb_prop in H; destruct H as [H | H]);
    apply N.eqb_eq in H; now subst.
Qed.

Lemma match_exp_delimited rest :
  delimited rest = true -> match_exp rest = ([], rest).
Proof.
  destruct rest as [|c r]; simpl; auto. intros H.
  repeat (apply orb_prop in H; destruct H as [H | H]);
    apply N.eqb_eq in H; now subst.
Qed.

(** The number pattern on a digit string that does not start with 0. *)
Lemma match_number_digits c ds rest :
  is_digit c = true -> c <> 48 -> forallb is_digit ds = true ->
  delimited rest = true ->
  match_number (c :: ds ++ rest) = Some (c :: ds, [], [], rest) /\
  match_number (45 :: c :: ds ++ rest) = Some (45 :: c :: ds, [], [], rest).
Proof.
  intros Hc H0 Hds Hrest.
  assert (H45 : (c =? 45) = false).
  { apply N.eqb_neq. intros ->. discriminate. }
  apply N.eqb_neq in H0.
  unfold match_number.
  change (45 =? 45) with true. cbv iota. rewrite H45, Hc, H0.
  rewrite span_digits_app;
    [| assumption | now apply delimited_not_digit].
  rewrite match_frac_delimited, match_exp_delimited by assumption.
  split; reflexivity.
Qed.

Lemma N_repr_pos p :
  exists c ds, N_repr (Npos p) = c :: ds /\ is_digit c = true /\ c <> 48 /\
               forallb is_digit ds = true.
Proof.
  destruct (to_uint_normal p) as (c & ds & E & Hc & H0).
  exists c, ds. unfold N_repr. simpl N.to_uint. rewrite E.
  repeat split; auto.
  pose proof (uint_chars_digits (Pos.to_uint p)) as H. rewrite E in H.
  simpl in H. now apply andb_prop in H.
Qed.

Lemma of_uint_N_repr n : N.of_uint (uint_of_digits (N_repr n)) = n.
Proof.
  unfold N_repr. rewrite uint_of_digits_chars.
  apply DecimalN.Unsigned.of_to.
Qed.

Lemma match_number_int z rest :
  delimited rest = true ->
  match_number (int_repr z ++ rest) = Some (int_repr z, [], [], rest).
Proof.
  intros Hrest. destruct z as [| p | p]; unfold int_repr.
  - change (N_repr 0) with [48].
    destruct rest as [|c r]; [reflexivity |]. simpl in Hrest.
    repeat (apply orb_prop in Hrest; destruct Hrest as [Hrest | Hrest]);
      apply N.eqb_eq in Hrest; subst; reflexivity.
  - destruct (N_repr_pos p) as (c & ds & -> & Hc & H0 & Hds).
    cbn [app]. now apply match_number_digits.
  - destruct (N_repr_pos p) as (c & ds & -> & Hc & H0 & Hds).
    cbn [app]. now apply match_number_digits.
Qed.

Lemma int_of_text_repr z : int_of_text (int_repr z) = z.
Proof.
  destruct z as [| p | p]; unfold int_repr.
  - reflexivity.
  - destruct (N_repr_pos p) as (c & ds & E & Hc & H0 & Hds).
    unfold int_of_text. rewrite E.
    assert ((c =? 45) = false) as ->.
    { apply N.eqb_neq. intros ->. discriminate. }
    rewrite <- E, of_uint_N_repr. reflexivity.
  - unfold int_of_text. change (45 =? 45) with true. cbv iota.
    now rewrite of_uint_N_repr.
Qed.

(** The first character of the text of an integer: a digit or the sign. *)
Lemma int_repr_head z :
  exists c r, int_repr z = c :: r /\ (is_digit c = true \/ c = 45).
Proof.
  destruct z as [| p | p]; unfold int_repr.
  - exists 48, []. auto.
  - destruct (N_repr_pos p) as (c & ds & -> & Hc & _). eauto.
  - eauto.
Qed.

Lemma strip_prefix_low p0 p c r :
  c < p0 -> strip_prefix (p0 :: p) (c :: r) = None.
Proof.
  intros Hc. simpl. destruct (N.eqb_spec p0 c) as [-> | Hneq]; auto. lia.
Qed.

Lemma scan_scalar_number c r i rest :
  c < 58 -> match_number (c :: r) = Some (i, [], [], rest) ->
  scan_scalar (c :: r) = Scanned (VInt (int_of_text i)) rest.
Proof.
  intros Hc Hm. unfold scan_scalar.
  assert (strip_prefix (u "null") (c :: r) = None) as ->
    by (apply strip_prefix_low; unfold ord; simpl; lia).
  assert (strip_prefix (u "true") (c :: r) = None) as ->
    by (apply strip_prefix_low; unfold ord; simpl; lia).
  assert (strip_prefix (u "false") (c :: r) = None) as ->
    by (apply strip_prefix_low; unfold ord; simpl; lia).
  now rewrite Hm.
Qed.

Lemma scan_scalar_int z rest :
  delimited rest = true ->
  scan_scalar (int_repr z ++ rest) = Scanned (VInt z) rest.
Proof.
  intros Hrest.
  pose proof (match_number_int z rest Hrest) as Hm.
  destruct (int_repr_head z) as (c & r & E & Hc).
  assert (Hlow : c < 58).
  { destruct Hc as [Hc | ->]; [| reflexivity].
    unfold is_digit in Hc. apply andb_prop in Hc. destruct Hc as [_ Hc].
    apply N.leb_le in Hc. lia. }
  rewrite <- (int_of_text_repr z) at 2.
  rewrite E in Hm at 1. rewrite E at 1. cbn [app] in *.
  now apply scan_scalar_number.
Qed.


Section Encoding.

Variable ensure_ascii : bool.
Variable indent : option nat.

Local Abbreviation separator := (Json.separator indent).
Local Abbreviation list_rest := (Json.list_rest ensure_ascii indent).
Local Abbreviation member := (Json.member ensure_ascii indent).
Local Abbreviation dict_rest := (Json.dict_rest ensure_ascii indent).

Lemma iterencode_list
 level x l :
  iterencode ensure_ascii indent level (VList (x :: l))
  = 91 :: newline_indent indent (S level)
       ++ iterencode ensure_ascii indent (S level) x
       ++ list_rest level l ++ newline_indent indent level ++ [93].
Proof.
  cbn [iterencode]. change (u "[") with [91]. cbn [app].
  do 4 f_equal. induction l as [|y l IH]; [reflexivity |].
  cbn [Json.list_rest]. unfold Json.separator. rewrite <- IH, <- !List.app_assoc.
  reflexivity.
Qed.

Lemma iterencode_dict level k x d :
  iterencode ensure_ascii indent level (VDict ((k, x) :: d))
  = 123 :: newline_indent indent (S level) ++ member level k x
       ++ dict_rest level d ++ newline_indent indent level ++ [125].
Proof.
  cbn [iterencode]. change (u "{") with [123]. cbn [app]. unfold Json.member.
  rewrite <- !List.app_assoc. do 6 f_equal.
  induction d as [|[k' y] d IH]; [reflexivity |].
  cbn [Json.dict_rest]. unfold Json.separator, Json.member.
  rewrite <- IH, <- !List.app_assoc. reflexivity.
Qed.


(** Whitespace *)

Lemma skip_ws_start c r : is_ws c = false -> skip_ws (c :: r) = c :: r.
Proof. intros H. simpl. now rewrite H. Qed.

Lemma skip_ws_spaces n s : skip_ws (repeat 32 n ++ s) = skip_ws s.
Proof. induction n; simpl; auto. Qed.

Lemma skip_ws_newline_indent level s :
  skip_ws (newline_indent indent level ++ s) = skip_ws s.
Proof.
  unfold newline_indent. destruct indent; [| reflexivity].
  cbn [app]. change (skip_ws (10 :: ?x)) with (skip_ws x).
  simpl. apply skip_ws_spaces.
Qed.

Lemma separator_comma level s :
  exists w, separator level ++ s = 44 :: w ++ s /\
            forall t, skip_ws (w ++ t) = skip_ws t.
Proof.
  unfold Json.separator, item_separator. destruct indent as [n|].
  - exists (newline_indent (Some n) (S level)). split; [reflexivity |].
    intros t. unfold newline_indent. simpl. apply skip_ws_spaces.
  - exists [32]. split; reflexivity.
Qed.

Lemma delimited_newline_indent level c rest :
  c = 93 \/ c = 125 ->
  delimited (newline_indent indent level ++ c :: rest) = true.
Proof. intros [-> | ->]; unfold newline_indent; destruct indent; reflexivity. Qed.

Lemma delimited_separator level s : delimited (separator level ++ s) = true.
Proof. unfold Json.separator, item_separator. destruct indent; reflexivity. Qed.

Lemma delimited_list_rest level l c rest :
  c = 93 \/ c = 125 ->
  delimited (list_rest level l ++ newline_indent indent level ++ c :: rest)
  = true.
Proof.
  intros Hc. destruct l as [|y l].
  - now apply delimited_newline_indent.
  - cbn [Json.list_rest]. rewrite <- List.app_assoc. apply delimited_separator.
Qed.

Lemma delimited_dict_rest level d c rest :
  c = 93 \/ c = 125 ->
  delimited (dict_rest level d ++ newline_indent indent level ++ c :: rest)
  = true.
Proof.
  intros Hc. destruct d as [|[k y] d].
  - now apply delimited_newline_indent.
  - cbn [Json.dict_rest]. rewrite <- List.app_assoc. apply delimited_separator.
Qed.


Lemma digit_value_start c : is_digit c = true \/ c = 45 -> value_start c.
Proof.
  intros [H | ->]; [| repeat split; try discriminate; reflexivity].
  unfold is_digit in H. apply andb_prop in H. destruct H as [H1 H2].
  apply N.leb_le in H1, H2. unfold value_start, is_ws.
  repeat split; try lia.
  repeat (apply orb_false_intro); apply N.eqb_neq; lia.
Qed.

Lemma encoding_head level v :
  json_safe v = true ->
  exists c r, iterencode ensure_ascii indent level v = c :: r /\
              value_start c.
Proof.
  intros Hv. destruct v as [| b | z | lit | s | [|x l] | [|[k x] d]].
  - exists 110, (u "ull"). repeat split; try discriminate; reflexivity.
  - destruct b; eexists _, _; (split; [reflexivity |]);
      repeat split; try discriminate; reflexivity.
  - destruct (int_repr_head z) as (c & r & E & Hc).
    exists c, r. split; [exact E | now apply digit_value_start].
  - discriminate.
  - eexists _, _. split; [reflexivity |]. repeat split; try discriminate; reflexivity.
  - eexists _, _. split; [reflexivity |]. repeat split; try discriminate; reflexivity.
  - rewrite iterencode_list. eexists _, _. split; [reflexivity |].
    repeat split; try discriminate; reflexivity.
  - eexists _, _. split; [reflexivity |]. repeat split; try discriminate; reflexivity.
  - rewrite iterencode_dict. eexists _, _. split; [reflexivity |].
    repeat split; try discriminate; reflexivity.
Qed.

Lemma skip_ws_encoding level v t :
  json_safe v = true ->
  skip_ws (iterencode ensure_ascii indent level v ++ t)
  = iterencode ensure_ascii indent level v ++ t.
Proof.
  intros Hv. destruct (encoding_head level v Hv) as (c & r & -> & Hc & _).
  cbn [app]. now apply skip_ws_start.
Qed.


(** One step of each of the three scanning functions. *)

Lemma scan_once_string fuel s1 :
  scan_once (S fuel) (34 :: s1)
  = match scanstring (34 :: s1) s1 [] with
    | Scanned t r => Scanned (VStr t) r
    | Failed m a => Failed m a
    | TooDeep => TooDeep
    end.
Proof. reflexivity. Qed.

Lemma scan_once_array fuel s1 :
  scan_once (S fuel) (91 :: s1)
  = match skip_ws s1 with
    | (c2 :: r) as s2 =>
        if c2 =? 93 then Scanned (VList []) r else array_loop fuel s2 []
    | [] => array_loop fuel [] []
    end.
Proof. reflexivity. Qed.

Lemma scan_once_object fuel s1 :
  scan_once (S fuel) (123 :: s1)
  = match skip_ws s1 with
    | (c2 :: r) as s2 =>
        if c2 =? 125 then Scanned (VDict []) r else object_loop fuel s2 []
    | [] => object_loop fuel [] []
    end.
Proof. reflexivity. Qed.

Lemma scan_once_scalar fuel c r :
  is_digit c = true \/ c = 45 ->
  scan_once (S fuel) (c :: r) = scan_scalar (c :: r).
Proof.
  intros Hc.
  assert (H : (c =? 34) = false /\ (c =? 123) = false /\ (c =? 91) = false).
  { destruct Hc as [Hc | ->]; [| repeat split; reflexivity].
    unfold is_digit in Hc. apply andb_prop in Hc. destruct Hc as [H1 H2].
    apply N.leb_le in H1, H2. repeat split; apply N.eqb_neq; lia. }
  destruct H as (H1 & H2 & H3).
  change (scan_once (S fuel) (c :: r))
    with (if c =? 34 then
            match scanstring (c :: r) r [] with
            | Scanned t r => Scanned (VStr t) r
            | Failed m a => Failed m a
            | TooDeep => TooDeep
            end
          else if c =? 123 then
            match skip_ws r with
            | (c2 :: r) as s2 =>
                if c2 =? 125 then Scanned (VDict []) r
                else object_loop fuel s2 []
            | [] => object_loop fuel [] []
            end
          else if c =? 91 then
            match skip_ws r with
            | (c2 :: r) as s2 =>
                if c2 =? 93 then Scanned (VList []) r
                else array_loop fuel s2 []
            | [] => array_loop fuel [] []
            end
          else scan_scalar (c :: r)).
  now rewrite H1, H2, H3.
Qed.

Lemma array_loop_S fuel s acc :
  array_loop (S fuel) s acc
  = match scan_once fuel s with
    | Scanned v r =>
        match skip_ws r with
        | (c :: r') as r1 =>
            if c =? 93 then Scanned (VList (rev (v :: acc))) r'
            else if c =? 44 then array_loop fuel (skip_ws r') (v :: acc)
            else Failed expecting_comma_msg r1
        | [] => Failed expecting_comma_msg []
        end
    | Failed m a => Failed m a
    | TooDeep => TooDeep
    end.
Proof. reflexivity. Qed.

Lemma object_loop_S fuel q s1 pairs :
  object_loop (S fuel) (q :: s1) pairs
  = if q =? 34 then
      match scanstring (q :: s1) s1 [] with
      | Scanned k r =>
          match skip_ws r with
          | (col :: r2) as r1 =>
              if col =? 58 then
                match scan_once fuel (skip_ws r2) with
                | Scanned v r3 =>
                    let pairs' := dict_setitem pairs (KStr k) v in
                    match skip_ws r3 with
                    | (d :: r5) as r4 =>
                        if d =? 125 then Scanned (VDict pairs') r5
                        else if d =? 44
                        then object_loop fuel (skip_ws r5) pairs'
                        else Failed expecting_comma_msg r4
                    | [] => Failed expecting_comma_msg []
                    end
                | Failed m a => Failed m a
                | TooDeep => TooDeep
                end
              else Failed expecting_colon_msg r1
          | [] => Failed expecting_colon_msg []
          end
      | Failed m a => Failed m a
      | TooDeep => TooDeep
      end
    else Failed expecting_name_msg (q :: s1).
Proof. reflexivity. Qed.


Lemma separator_length level : (1 <= length (separator level))%nat.
Proof.
  unfold Json.separator, item_separator. rewrite length_app.
  destruct indent; simpl; lia.
Qed.

Lemma distinct_fresh pairs k x d :
  distinct_keys (map fst (pairs ++ (k, x) :: d)) = true ->
  dict_get pairs k = None.
Proof.
  induction pairs as [|[k' v'] pairs IH]; simpl; auto.
  intros H. apply andb_prop in H. destruct H as [H1 H2].
  rewrite map_app, existsb_app in H1. simpl in H1.
  apply negb_true_iff in H1. apply orb_false_elim in H1.
  destruct H1 as [_ H1]. apply orb_false_elim in H1. destruct H1 as [H1 _].
  rewrite key_eqb_sym, H1. auto.
Qed.

Local Abbreviation scan_value_at fuel :=
  (  forall v level rest,
    json_safe v = true ->
    (length (iterencode ensure_ascii indent level v) < fuel)%nat ->
    delimited rest = true ->
    scan_once fuel (iterencode ensure_ascii indent level v ++ rest)
    = Scanned v rest).

Local Abbreviation scan_items_at fuel :=
  (  forall x l level acc rest,
    json_safe x = true -> forallb json_safe l = true ->
    (length (iterencode ensure_ascii indent (S level) x ++ list_rest level l)
     + 2 <= fuel)%nat ->
    array_loop fuel
      (iterencode ensure_ascii indent (S level) x ++ list_rest level l
         ++ newline_indent indent level ++ 93 :: rest) acc
    = Scanned (VList (rev acc ++ x :: l)) rest).

Local Abbreviation scan_members_at fuel :=
  (  forall k x d level pairs rest,
    safe_member (k, x) = true -> forallb safe_member d = true ->
    distinct_keys (map fst (pairs ++ (k, x) :: d)) = true ->
    (length (member level k x ++ dict_rest level d) + 2 <= fuel)%nat ->
    object_loop fuel
      (member level k x ++ dict_rest level d
         ++ newline_indent indent level ++ 125 :: rest) pairs
    = Scanned (VDict (pairs ++ (k, x) :: d)) rest).

Lemma scan_items_step fuel :
  scan_value_at fuel -> scan_items_at fuel -> scan_items_at (S fuel).
Proof.
  intros IHv IHa x l level acc rest Hx Hl Hlen.
  rewrite length_app in Hlen.
  rewrite array_loop_S, IHv;
    [| assumption | lia | now apply delimited_list_rest; left].
  cbv beta iota. destruct l as [|y l].
  - cbn [list_rest app].
    rewrite skip_ws_newline_indent, skip_ws_start by reflexivity.
    reflexivity.
  - cbn [forallb] in Hl. apply andb_prop in Hl. destruct Hl as [Hy Hl].
    cbn [Json.list_rest] in *. rewrite <- !List.app_assoc.
    rewrite !length_app in Hlen. pose proof (separator_length level) as Hs.
    destruct (separator_comma level
                (iterencode ensure_ascii indent (S level) y
                   ++ list_rest level l
                   ++ newline_indent indent level ++ 93 :: rest))
      as (w & -> & Hw).
    rewrite skip_ws_start by reflexivity. cbv beta iota.
    change (44 =? 93) with false. change (44 =? 44) with true. cbv iota.
    rewrite Hw, skip_ws_encoding by assumption.
    rewrite IHa; [| assumption | assumption | rewrite length_app; lia].
    simpl. now rewrite <- List.app_assoc.
Qed.


Lemma member_text level f x :
  member level (KStr f) x
  = 34 :: flat_map (escape_char ensure_ascii) f
       ++ 34 :: 58 :: 32 :: iterencode ensure_ascii indent (S level) x.
Proof.
  unfold Json.member, encode_basestring, key_separator, key_text.
  cbn [app]. now rewrite <- List.app_assoc.
Qed.

Lemma skip_ws_member level k x t :
  skip_ws (member level k x ++ t) = member level k x ++ t.
Proof. reflexivity. Qed.

Lemma scan_members_step fuel :
  scan_value_at fuel -> scan_members_at fuel -> scan_members_at (S fuel).
Proof.
  intros IHv IHo k x d level pairs rest Hkx Hd Hdist Hlen.
  unfold safe_member in Hkx. cbn [fst snd] in Hkx.
  apply andb_prop in Hkx. destruct Hkx as [Hk Hx].
  destruct k as [| | | f]; try discriminate. cbn [is_text_key] in Hk.
  assert (Hfresh := distinct_fresh _ _ _ _ Hdist).
  rewrite length_app, member_text in Hlen. cbn [length] in Hlen.
  rewrite length_app in Hlen. cbn [length] in Hlen.
  rewrite member_text. cbn [app]. rewrite <- !List.app_assoc. cbn [app].
  rewrite object_loop_S. change (34 =? 34) with true. cbv iota.
  rewrite scanstring_escaped by assumption. cbv iota. cbn [rev app].
  rewrite skip_ws_start by reflexivity. cbv iota.
  change (58 =? 58) with true. cbv iota.
  change (skip_ws (32 :: ?t)) with (skip_ws t).
  rewrite skip_ws_encoding by assumption.
  rewrite IHv; [| assumption | lia | now apply delimited_dict_rest; right].
  cbv beta iota zeta. rewrite dict_setitem_fresh by assumption.
  destruct d as [|[k' y] d].
  - cbn [dict_rest app].
    rewrite skip_ws_newline_indent, skip_ws_start by reflexivity.
    reflexivity.
  - cbn [forallb] in Hd. apply andb_prop in Hd. destruct Hd as [Hy Hd].
    cbn [Json.dict_rest] in *. rewrite <- !List.app_assoc.
    rewrite !length_app in Hlen. pose proof (separator_length level) as Hs.
    destruct (separator_comma level
                (member level k' y ++ dict_rest level d
                   ++ newline_indent indent level ++ 125 :: rest))
      as (w & -> & Hw).
    rewrite skip_ws_start by reflexivity. cbv beta iota.
    change (44 =? 125) with false. change (44 =? 44) with true. cbv iota.
    rewrite Hw, skip_ws_member.
    rewrite IHo; [| assumption | assumption | | rewrite length_app; lia].
    + now rewrite <- List.app_assoc.
    + now rewrite <- List.app_assoc.
Qed.

Lemma scan_value_step fuel :
  scan_value_at fuel -> scan_items_at fuel -> scan_members_at fuel ->
  scan_value_at (S fuel).
Proof.
  intros IHv IHa IHo v level rest Hv Hlen Hrest.
  destruct v as [| b | z | lit | s | [|x l] | [|[k x] d]].
  - reflexivity.
  - destruct b; reflexivity.
  - cbn [iterencode].
    destruct (int_repr_head z) as (c & r & E & Hc).
    rewrite E at 1. cbn [app]. rewrite scan_once_scalar by assumption.
    change (c :: r ++ rest) with ((c :: r) ++ rest). rewrite <- E.
    now apply scan_scalar_int.
  - discriminate.
  - cbn [iterencode json_safe] in *. unfold encode_basestring.
    cbn [app]. rewrite <- List.app_assoc. cbn [app].
    rewrite scan_once_string, scanstring_escaped by assumption.
    reflexivity.
  - reflexivity.
  - cbn [json_safe forallb] in Hv. apply andb_prop in Hv.
    destruct Hv as [Hx Hl].
    rewrite iterencode_list in *. cbn [length] in Hlen.
    rewrite !length_app in Hlen. cbn [length] in Hlen.
    cbn [app]. rewrite <- !List.app_assoc. cbn [app].
    rewrite scan_once_array, skip_ws_newline_indent.
    rewrite skip_ws_encoding by assumption.
    destruct (encoding_head (S level) x Hx) as (c & r & E & _ & Hc & _).
    rewrite E at 1. cbn [app]. cbv iota.
    apply N.eqb_neq in Hc. rewrite Hc.
    change (c :: r ++ ?t) with ((c :: r) ++ t). rewrite <- E.
    rewrite IHa; [reflexivity | assumption | assumption |].
    rewrite length_app. lia.
  - reflexivity.
  - cbn [json_safe map fst forallb] in Hv. apply andb_prop in Hv.
    destruct Hv as [Hdist Hm]. apply andb_prop in Hm.
    destruct Hm as [Hkx Hd].
    rewrite iterencode_dict in *. cbn [length] in Hlen.
    rewrite !length_app in Hlen. cbn [length] in Hlen.
    cbn [app]. rewrite <- !List.app_assoc. cbn [app].
    rewrite scan_once_object, skip_ws_newline_indent, skip_ws_member.
    assert (Hq : exists r, member level k x = 34 :: r).
    { unfold Json.member, encode_basestring. cbn [app]. eauto. }
    destruct Hq as (r & E). rewrite E at 1. cbn [app]. cbv iota.
    change (34 =? 125) with false. cbv iota.
    change (34 :: r ++ ?t) with ((34 :: r) ++ t). rewrite <- E.
    rewrite IHo; [reflexivity | exact Hkx | exact Hd | exact Hdist |].
    rewrite length_app. lia.
Qed.

(** Every safe value is read back from its encoding, whatever follows it
    in a container or at the end of the document. *)
Lemma scan_encoding : forall fuel,
  scan_value_at fuel /\ scan_items_at fuel /\ scan_members_at fuel.
Proof.
  induction fuel as [|fuel (IHv & IHa & IHo)].
  - repeat split.
    + intros v level rest _ H. lia.
    + intros x l level acc rest _ _ H. lia.
    + intros k x d level pairs rest _ _ _ H. lia.
  - repeat split.
    + now apply scan_value_step.
    + now apply scan_items_step.
    + now apply scan_members_step.
Qed.

End Encoding.



Lemma no_cr_app s t : no_cr (s ++ t) = no_cr s && no_cr t.
Proof. apply forallb_app. Qed.

Lemma universal_newlines_no_cr s :
  no_cr s = true -> Fs.universal_newlines s = s.
Proof.
  induction s as [|c s IH]; [reflexivity |].
  cbn [no_cr forallb]. intros H. apply andb_prop in H. destruct H as [Hc Hs].
  apply negb_true_iff in Hc. cbn [Fs.universal_newlines]. rewrite Hc.
  f_equal. now apply IH.
Qed.

Lemma hex_digit_no_cr d : d < 16 -> hex_digit d <> 13.
Proof. intros H. unfold hex_digit. destruct (N.ltb_spec d 10); lia. Qed.

Lemma escape_u_no_cr n : no_cr (escape_u n) = true.
Proof.
  unfold escape_u, hex4, no_cr. cbn [forallb].
  rewrite !andb_true_iff. repeat split;
    try reflexivity; apply negb_true_iff, N.eqb_neq, hex_digit_no_cr;
    apply N.mod_lt; discriminate.
Qed.

Lemma escape_char_no_cr ensure_ascii c :
  no_cr (escape_char ensure_ascii c) = true.
Proof.
  unfold escape_char, escape_dct.
  repeat match goal with
         | |- context [if ?c =? ?k then _ else _] =>
             destruct (N.eqb_spec c k); [reflexivity |]
         end.
  destruct (N.ltb_spec c 32); [apply escape_u_no_cr |].
  destruct (ensure_ascii && _).
  - destruct (c <? 65536); [apply escape_u_no_cr |].
    cbv zeta. now rewrite no_cr_app, !escape_u_no_cr.
  - unfold no_cr. cbn [forallb].
    assert ((c =? 13) = false) as -> by (apply N.eqb_neq; lia).
    reflexivity.
Qed.

Lemma encode_basestring_no_cr ensure_ascii s :
  no_cr (encode_basestring ensure_ascii s) = true.
Proof.
  unfold encode_basestring. cbn [no_cr forallb]. fold (no_cr).
  change (forallb (fun c => negb (c =? 13))) with no_cr.
  rewrite no_cr_app. apply andb_true_intro. split; [reflexivity |].
  apply andb_true_intro. split; [| reflexivity].
  induction s as [|c s IH]; [reflexivity |].
  cbn [flat_map]. now rewrite no_cr_app, escape_char_no_cr.
Qed.

Lemma digits_no_cr ds : forallb is_digit ds = true -> no_cr ds = true.
Proof.
  induction ds as [|c ds IH]; [reflexivity |].
  cbn [forallb no_cr]. intros H. apply andb_prop in H. destruct H as [Hc Hd].
  apply andb_true_intro. split; [| now apply IH].
  unfold is_digit in Hc. apply andb_prop in Hc. destruct Hc as [H1 _].
  apply N.leb_le in H1. apply negb_true_iff, N.eqb_neq. lia.
Qed.

Lemma int_repr_no_cr z : no_cr (int_repr z) = true.
Proof.
  destruct z as [| p | p]; unfold int_repr, N_repr.
  - reflexivity.
  - apply digits_no_cr, uint_chars_digits.
  - cbn [no_cr forallb]. apply digits_no_cr, uint_chars_digits.
Qed.

Section EncodingText.

Variable ensure_ascii : bool.
Variable indent : option nat.

Lemma newline_indent_no_cr level : no_cr (newline_indent indent level) = true.
Proof.
  unfold newline_indent. destruct indent; [| reflexivity].
  cbn [no_cr forallb]. apply forallb_forall.
  intros c Hc. apply repeat_spec in Hc. now subst.
Qed.

Lemma separator_no_cr level : no_cr (separator indent level) = true.
Proof.
  unfold separator. rewrite no_cr_app, newline_indent_no_cr.
  unfold item_separator. destruct indent; reflexivity.
Qed.

Lemma list_rest_no_cr level l :
  Forall (fun x => forall level,
            json_safe x = true ->
            no_cr (iterencode ensure_ascii indent level x) = true) l ->
  forallb json_safe l = true ->
  no_cr (list_rest ensure_ascii indent level l) = true.
Proof.
  induction 1 as [|y l IHy _ IHl]; [reflexivity |].
  cbn [forallb list_rest]. intros H. apply andb_prop in H.
  destruct H as [Hy Hl].
  now rewrite !no_cr_app, separator_no_cr, IHy, IHl.
Qed.

Lemma dict_rest_no_cr level d :
  Forall (fun kv => forall level,
            json_safe (snd kv) = true ->
            no_cr (iterencode ensure_ascii indent level (snd kv)) = true) d ->
  forallb safe_member d = true ->
  no_cr (dict_rest ensure_ascii indent level d) = true.
Proof.
  induction 1 as [|[k y] d IHy _ IHd]; [reflexivity |].
  cbn [forallb dict_rest]. intros H. apply andb_prop in H.
  destruct H as [Hy Hd]. apply andb_prop in Hy. destruct Hy as [_ Hy].
  cbn [snd] in *. unfold member.
  now rewrite !no_cr_app, separator_no_cr, encode_basestring_no_cr, IHy, IHd.
Qed.

Lemma iterencode_no_cr v : forall level,
  json_safe v = true -> no_cr (iterencode ensure_ascii indent level v) = true.
Proof.
  induction v as [| b | z | lit | s | l IH | d IH] using value_ind;
    intros level Hv.
  - reflexivity.
  - destruct b; reflexivity.
  - apply int_repr_no_cr.
  - discriminate.
  - apply encode_basestring_no_cr.
  - destruct l as [|x l]; [reflexivity |].
    rewrite iterencode_list. cbn [json_safe forallb] in Hv.
    apply andb_prop in Hv. destruct Hv as [Hx Hl].
    inversion IH as [|? ? IHx IHl]; subst.
    cbn [no_cr forallb]. change (forallb (fun c => negb (c =? 13))) with no_cr.
    now rewrite !no_cr_app, !newline_indent_no_cr, IHx, list_rest_no_cr.
  - destruct d as [|[k x] d]; [reflexivity |].
    rewrite iterencode_dict. cbn [json_safe map fst forallb] in Hv.
    apply andb_prop in Hv. destruct Hv as [_ Hm].
    apply andb_prop in Hm. destruct Hm as [Hkx Hd].
    apply andb_prop in Hkx. destruct Hkx as [_ Hx]. cbn [snd] in Hx.
    inversion IH as [|? ? IHx IHd]; subst. cbn [snd] in IHx.
    cbn [no_cr forallb]. change (forallb (fun c => negb (c =? 13))) with no_cr.
    unfold member.
    now rewrite !no_cr_app, !newline_indent_no_cr, encode_basestring_no_cr,
      IHx, dict_rest_no_cr.
Qed.

(** What [dumps] writes for a safe value, [loads] reads back. *)
Lemma loads_dumps v :
  json_safe v = true -> loads (dumps ensure_ascii indent v) = Ok v.
Proof.
  intros Hv. unfold dumps, loads, decode.
  destruct (encoding_head ensure_ascii indent 0 v Hv)
    as (c & r & E & Hws).
  assert (Hbom : (c =? 65279) = false).
  { destruct Hws as (_ & _ & _ & _ & Hc). apply N.eqb_neq. lia. }
  rewrite E at 1. rewrite Hbom.
  rewrite <- (List.app_nil_r (iterencode ensure_ascii indent 0 v)) at 2.
  rewrite skip_ws_encoding by assumption.
  destruct (scan_encoding ensure_ascii indent
              (S (2 * length (iterencode ensure_ascii indent 0 v))))
    as (Hscan & _).
  rewrite Hscan; [reflexivity | assumption | lia | reflexivity].
Qed.

End EncodingText.

(** The decoder consumes what it reads, and its fuel is enough. *)

Lemma skip_ws_length s : (length (skip_ws s) <= length s)%nat.
Proof.
  induction s as [|c s IH]; simpl; [lia |].
  destruct (is_ws c); simpl; lia.
Qed.

(** Case analysis on the scrutinee of a match in a hypothesis. *)
Ltac break_match :=
  match goal with
  | H : context [match ?x with _ => _ end] |- _ =>
      destruct x eqn:?; try discriminate
  end.

Lemma scanstring_shorter begin : forall n s acc t r,
  (length s <= n)%nat ->
  scanstring begin s acc = Scanned t r -> (length r < length s)%nat.
Proof.
  induction n as [|n IH]; intros s acc t r Hn H.
  - destruct s; [discriminate | simpl in Hn; lia].
  - rewrite scanstring_eq in H.
    repeat (break_match; subst; cbn [length] in *);
      try (inversion H; subst; cbn [length]; lia);
      try (apply IH in H; cbn [length] in *; lia).
Qed.

Lemma strip_prefix_length p : forall s r,
  strip_prefix p s = Some r -> (length r + length p = length s)%nat.
Proof.
  induction p as [|c p IH]; intros s r H; simpl in *.
  - inversion H. lia.
  - destruct s as [|d s]; [discriminate |].
    destruct (c =? d); [| discriminate]. apply IH in H. simpl. lia.
Qed.

Lemma span_digits_length s : forall ds r,
  span_digits s = (ds, r) -> (length r <= length s)%nat.
Proof.
  induction s as [|c s IH]; intros ds r H; simpl in *.
  - inversion H. simpl. lia.
  - destruct (is_digit c).
    + destruct (span_digits s) as [ds' r'] eqn:E. inversion H; subst.
      specialize (IH _ _ eq_refl). lia.
    + inversion H; subst. simpl. lia.
Qed.

Lemma match_frac_length s f r :
  match_frac s = (f, r) -> (length r <= length s)%nat.
Proof.
  unfold match_frac. intros H.
  destruct s as [|c s]; [inversion H; simpl; lia |].
  destruct (c =? 46); [| inversion H; simpl; lia].
  destruct (span_digits s) as [ds r'] eqn:E.
  apply span_digits_length in E.
  destruct ds; inversion H; subst; simpl; lia.
Qed.

Lemma match_exp_length s e r :
  match_exp s = (e, r) -> (length r <= length s)%nat.
Proof.
  unfold match_exp. intros H.
  destruct s as [|c s]; [inversion H; simpl; lia |].
  destruct ((c =? 101) || (c =? 69)); [| inversion H; simpl; lia].
  destruct s as [|d s'].
  - simpl in H. inversion H. simpl. lia.
  - destruct ((d =? 43) || (d =? 45)).
    + destruct (span_digits s') as [ds r'] eqn:E.
      apply span_digits_length in E.
      destruct ds; inversion H; subst; simpl; lia.
    + destruct (span_digits (d :: s')) as [ds r'] eqn:E.
      apply span_digits_length in E.
      destruct ds; inversion H; subst; simpl in *; lia.
Qed.

Lemma match_number_length s i f e r :
  match_number s = Some (i, f, e, r) -> (length r < length s)%nat.
Proof.
  unfold match_number. intros H.
  assert (Hd : forall c s2 sign,
             (if is_digit c
              then let (ds, s3) :=
                     if c =? 48 then ([], s2) else span_digits s2 in
                   let (frac, s4) := match_frac s3 in
                   let (exp, s5) := match_exp s4 in
                   Some (sign ++ c :: ds, frac, exp, s5)
              else None) = Some (i, f, e, r) ->
             (length r <= length s2)%nat).
  { intros c s2 sign Hc. destruct (is_digit c); [| discriminate].
    destruct (if c =? 48 then ([], s2) else span_digits s2)
      as [ds s3] eqn:E3.
    assert (length s3 <= length s2)%nat.
    { destruct (c =? 48); [inversion E3; lia |].
      now apply span_digits_length in E3. }
    destruct (match_frac s3) as [frac s4] eqn:E4.
    apply match_frac_length in E4.
    destruct (match_exp s4) as [exp s5] eqn:E5.
    apply match_exp_length in E5. inversion Hc; subst. lia. }
  destruct s as [|c s]; [discriminate |].
  destruct (c =? 45).
  - destruct s as [|c' s']; [discriminate |].
    apply Hd in H. simpl. lia.
  - apply Hd in H. simpl. lia.
Qed.

Lemma scan_scalar_shorter s v r :
  scan_scalar s = Scanned v r -> (length r < length s)%nat.
Proof.
  unfold scan_scalar. intros H.
  repeat match type of H with
         | match strip_prefix ?p s with _ => _ end = _ =>
             let E := fresh "E" in
             destruct (strip_prefix p s) eqn:E;
             [apply strip_prefix_length in E; inversion H; subst;
              simpl in E; lia |]
         end.
  destruct (match_number s) as [[[[i f] e] r']|] eqn:Em.
  - apply match_number_length in Em.
    destruct f; destruct e; inversion H; subst; assumption.
  - repeat match type of H with
             | match strip_prefix ?p s with _ => _ end = _ =>
                 let E := fresh "E" in
                 destruct (strip_prefix p s) eqn:E;
                 [apply strip_prefix_length in E; inversion H; subst;
                  simpl in E; lia |]
             end.
    discriminate.
Qed.

Lemma scanstring_not_deep begin : forall n s acc,
  (length s <= n)%nat -> scanstring begin s acc <> TooDeep.
Proof.
  induction n as [|n IH]; intros s acc Hn H.
  - destruct s; [discriminate | simpl in Hn; lia].
  - rewrite scanstring_eq in H.
    repeat (break_match; subst; cbn [length] in *);
      try discriminate;
      try (apply IH in H; [exact H | cbn [length] in *; lia]).
Qed.

Lemma scan_scalar_not_deep s : scan_scalar s <> TooDeep.
Proof.
  unfold scan_scalar. intros H.
  repeat break_match; discriminate.
Qed.

Lemma scan_once_S fuel s :
  scan_once (S fuel) s
  = match s with
    | [] => Failed expecting_value_msg s
    | c :: s1 =>
        if c =? 34 then
          match scanstring s s1 [] with
          | Scanned t r => Scanned (VStr t) r
          | Failed m a => Failed m a
          | TooDeep => TooDeep
          end
        else if c =? 123 then
          match skip_ws s1 with
          | (c2 :: r) as s2 =>
              if c2 =? 125 then Scanned (VDict []) r
              else object_loop fuel s2 []
          | [] => object_loop fuel [] []
          end
        else if c =? 91 then
          match skip_ws s1 with
          | (c2 :: r) as s2 =>
              if c2 =? 93 then Scanned (VList []) r
              else array_loop fuel s2 []
          | [] => array_loop fuel [] []
          end
        else scan_scalar s
    end.
Proof. destruct s; reflexivity. Qed.

Local Abbreviation consumes result s :=
  (result <> TooDeep /\
   forall (v : value) r, result = Scanned v r -> (length r < length s)%nat).

Lemma scan_fuel : forall fuel,
  (forall s, (2 * length s < fuel)%nat -> consumes (scan_once fuel s) s) /\
  (forall s acc, (2 * length s + 1 < fuel)%nat ->
                 consumes (array_loop fuel s acc) s) /\
  (forall s pairs, (2 * length s + 1 < fuel)%nat ->
                   consumes (object_loop fuel s pairs) s).
Proof.
  induction fuel as [|fuel (IHv & IHa & IHo)].
  - repeat split; intros; lia.
  - split; [| split].
    + intros s Hs. rewrite scan_once_S.
      destruct s as [|c s1]; [split; [discriminate | intros; discriminate] |].
      cbn [length] in Hs.
      destruct (c =? 34).
      { pose proof (scanstring_not_deep (c :: s1) (length s1) s1 []
                      (le_n _)) as Hd.
        destruct (scanstring (c :: s1) s1 []) as [t r | m a |] eqn:E;
          [| split; [discriminate | intros; discriminate] | congruence].
        apply scanstring_shorter with (n := length s1) in E; [| lia].
        split; [discriminate |]. intros v r' Hr. inversion Hr; subst.
        cbn [length]. lia. }
      pose proof (skip_ws_length s1) as Hw.
      destruct (c =? 123).
      { destruct (skip_ws s1) as [|c2 r] eqn:E.
        - destruct (IHo [] []) as [H1 H2]; [simpl; lia |].
          split; [exact H1 |]. intros v r' Hr. apply H2 in Hr.
          simpl in Hr. lia.
        - destruct (c2 =? 125).
          + split; [discriminate |]. intros v r' Hr. inversion Hr; subst.
            cbn [length] in *. lia.
          + destruct (IHo (c2 :: r) []) as [H1 H2]; [lia |].
            split; [exact H1 |]. intros v r' Hr. apply H2 in Hr.
            cbn [length] in *. lia. }
      destruct (c =? 91).
      { destruct (skip_ws s1) as [|c2 r] eqn:E.
        - destruct (IHa [] []) as [H1 H2]; [simpl; lia |].
          split; [exact H1 |]. intros v r' Hr. apply H2 in Hr.
          simpl in Hr. lia.
        - destruct (c2 =? 93).
          + split; [discriminate |]. intros v r' Hr. inversion Hr; subst.
            cbn [length] in *. lia.
          + destruct (IHa (c2 :: r) []) as [H1 H2]; [lia |].
            split; [exact H1 |]. intros v r' Hr. apply H2 in Hr.
            cbn [length] in *. lia. }
      split; [apply scan_scalar_not_deep |].
      intros v r Hr. now apply scan_scalar_shorter in Hr.
    + intros s acc Hs. rewrite array_loop_S.
      destruct (IHv s) as [H1 H2]; [lia |].
      destruct (scan_once fuel s) as [v r | m a |] eqn:E;
        [| split; [discriminate | intros; discriminate] | congruence].
      specialize (H2 v r eq_refl).
      pose proof (skip_ws_length r) as Hw.
      destruct (skip_ws r) as [|c r'] eqn:Er;
        [split; [discriminate | intros; discriminate] |].
      cbn [length] in Hw.
      destruct (c =? 93).
      { split; [discriminate |]. intros v' r'' Hr. inversion Hr; subst. lia. }
      destruct (c =? 44); [| split; [discriminate | intros; discriminate]].
      pose proof (skip_ws_length r') as Hw'.
      destruct (IHa (skip_ws r') (v :: acc)) as [H3 H4]; [lia |].
      split; [exact H3 |]. intros v' r'' Hr. apply H4 in Hr. lia.
    + intros s pairs Hs.
      destruct s as [|q s1]; [split; [discriminate | intros; discriminate] |].
      rewrite object_loop_S. cbn [length] in Hs.
      destruct (q =? 34); [| split; [discriminate | intros; discriminate]].
      pose proof (scanstring_not_deep (q :: s1) (length s1) s1 [] (le_n _))
        as Hd.
      destruct (scanstring (q :: s1) s1 []) as [k r | m a |] eqn:E;
        [| split; [discriminate | intros; discriminate] | congruence].
      apply scanstring_shorter with (n := length s1) in E; [| lia].
      pose proof (skip_ws_length r) as Hw.
      destruct (skip_ws r) as [|col r2] eqn:Er;
        [split; [discriminate | intros; discriminate] |].
      cbn [length] in Hw.
      destruct (col =? 58); [| split; [discriminate | intros; discriminate]].
      pose proof (skip_ws_length r2) as Hw2.
      destruct (IHv (skip_ws r2)) as [H1 H2]; [lia |].
      destruct (scan_once fuel (skip_ws r2)) as [v r3 | m a |] eqn:Ev;
        [| split; [discriminate | intros; discriminate] | congruence].
      specialize (H2 v r3 eq_refl). cbv zeta.
      pose proof (skip_ws_length r3) as Hw3.
      destruct (skip_ws r3) as [|d r5] eqn:Er3;
        [split; [discriminate | intros; discriminate] |].
      cbn [length] in Hw3.
      destruct (d =? 125).
      { split; [discriminate |]. intros v' r'' Hr. inversion Hr; subst.
        cbn [length]. lia. }
      destruct (d =? 44); [| split; [discriminate | intros; discriminate]].
      pose proof (skip_ws_length r5) as Hw5.
      destruct (IHo (skip_ws r5) (dict_setitem pairs (KStr k) v))
        as [H3 H4]; [lia |].
      split; [exact H3 |]. intros v' r'' Hr. apply H4 in Hr.
      cbn [length]. lia.
Qed.

(** [decode] never runs out of fuel: what it raises is a JSONDecodeError. *)
Lemma decode_raises_decode_error doc e :
  decode doc = Raise e -> exn_cls e = JSONDecodeError.
Proof.
  unfold decode.
  destruct (scan_fuel (S (2 * length doc))) as (Hv & _).
  destruct (Hv (skip_ws doc)) as [Hd _].
  { pose proof (skip_ws_length doc). lia. }
  destruct (scan_once _ _) as [obj r | msg a |]; [| | congruence].
  - destruct (skip_ws r); [discriminate |]. intros H. now inversion H.
  - intros H. now inversion H.
Qed.

Lemma loads_raises_decode_error doc e :
  loads doc = Raise e -> exn_cls e = JSONDecodeError.
Proof.
  unfold loads. destruct doc as [|c doc];
    [apply decode_raises_decode_error |].
  destruct (c =? 65279); [| apply decode_raises_decode_error].
  intros H. now inversion H.
Qed.

End JsonFacts.

(** ** The round trip through a file *)


Lemma json_scalar_safe v : json_scalar v = true -> json_safe v = true.
Proof. destruct v; simpl; auto; discriminate. Qed.

Lemma record_set_safe records :
  record_set records = true -> json_safe (records_value records) = true.
Proof.
  unfold record_set, records_value. cbn [json_safe]. intros H.
  rewrite forallb_forall in *. intros v Hv. apply in_map_iff in Hv.
  destruct Hv as (r & <- & Hr). specialize (H r Hr).
  unfold flat_record in H. apply andb_prop in H. destruct H as [Hd Hm].
  cbn [json_safe]. rewrite Hd. cbn [andb].
  rewrite forallb_forall in *. intros kv Hkv. specialize (Hm kv Hkv).
  apply andb_prop in Hm. destruct Hm as [Hk Hs].
  now rewrite Hk, json_scalar_safe.
Qed.






(** ** Further properties of the tools, the agent runner and the loop *)

Lemma min_length_unique n m d : min_length n d -> min_length m d -> n = m.
Proof.
  intros [(k & l & Hin & ->) Hle] [(k' & l' & Hin' & ->) Hle'].
  apply Nat.le_antisymm; [apply (Hle k' l' Hin') | apply (Hle' k l Hin)].
Qed.

Lemma min_length_positive n d : Forall is_field d -> min_length n d -> 1 <= n.
Proof.
  intros Hf [(k & l & Hin & ->) _].
  rewrite Forall_forall in Hf. destruct (Hf _ Hin) as [_ (x & l' & E)].
  cbn [snd] in E. injection E as ->. cbn [length]. lia.
Qed.

(** X1: a 'data' answer is given only for a FieldSet that passed both
    checks, and it is never empty: it holds as many records as the shortest
    column has values, at least one, each with the field names of the
    input in their order. *)
Theorem generate_sample_data_data_nonempty (d : dict) (data : list value) :
  dict_wf d ->
  generate_sample_data d = Ok (data_result data) ->
  field_set d /\ data <> [] /\ min_length (length data) d /\
  Forall (fun r => exists record, r = VDict record /\ keys record = keys d)
    data.
Proof.
  intros Hwf H.
  assert (Hf : Forall is_field d).
  { unfold generate_sample_data in H.
    destruct (forallb (fun '(k, v) => isinstance_str k && isinstance_list v) d)
      eqn:E1; cbn [negb] in H.
    2:{ exfalso. apply (@error_is_not_data invalid_format_msg data).
        congruence. }
    destruct (forallb truthy (values d)) eqn:E2; cbn [negb] in H.
    2:{ exfalso. apply (@error_is_not_data empty_list_msg data).
        congruence. }
    now apply checks_pass_fields. }
  assert (Hne : d <> []) by (intros ->; discriminate H).
  assert (Hfs : field_set d) by (repeat split; assumption).
  destruct (generate_sample_data_rows d Hfs) as (n & Hmin & E).
  rewrite E in H. injection H as <-.
  pose proof (min_length_positive n d Hf Hmin) as Hn.
  split; [exact Hfs |]. split.
  - destruct n; [lia | discriminate].
  - split; [now rewrite length_map, length_seq |].
    apply Forall_forall. intros r Hr. apply in_map_iff in Hr.
    destruct Hr as (i & <- & _). exists (row_at i d).
    split; [reflexivity | apply keys_row_at].
Qed.

Lemma generate_sample_data_data_nonempty_witness :
  field_set mismatched_fields /\ map VDict mismatched_records <> [].
Proof.
  refine ((fun H => conj (proj1 H) (proj1 (proj2 H)))
            (generate_sample_data_data_nonempty mismatched_fields
               (map VDict mismatched_records) _ _)).
  - cbn. tauto.
  - reflexivity.
Defined.

Lemma dict_get_truncate_none n d k :
  dict_get d k = None -> dict_get (truncate_columns n d) k = None.
Proof.
  induction d as [|[k' v] d IH]; simpl; auto.
  destruct (key_eqb k k'); [discriminate | auto].
Qed.

Lemma dict_wf_truncate n d : dict_wf d -> dict_wf (truncate_columns n d).
Proof.
  induction d as [|[k v] d IH]; simpl; auto.
  intros [Hnone Hwf]. split; auto using dict_get_truncate_none.
Qed.

Lemma is_field_truncate n kv :
  1 <= n -> is_field kv ->
  is_field (fst kv, match snd kv with VList l => VList (firstn n l) | v => v end).
Proof.
  intros Hn [Hk (x & l & Hv)]. split; [exact Hk |].
  rewrite Hv. destruct n as [|n]; [lia |]. cbn [snd firstn]. eauto.
Qed.

Lemma field_set_truncate n d :
  1 <= n -> field_set d -> field_set (truncate_columns n d).
Proof.
  intros Hn (Hne & Hwf & Hf). repeat split.
  - destruct d; [contradiction | discriminate].
  - now apply dict_wf_truncate.
  - unfold truncate_columns. apply Forall_map.
    eapply Forall_impl; [| exact Hf]. intros kv. now apply is_field_truncate.
Qed.

Lemma min_length_truncate n d :
  Forall is_field d -> min_length n d -> min_length n (truncate_columns n d).
Proof.
  intros Hf [(k & l & Hin & Hn) Hle]. split.
  - exists k, (firstn n l). split.
    + unfold truncate_columns. apply in_map_iff. now exists (k, VList l).
    + rewrite firstn_all2; [exact Hn | lia].
  - intros k' l' Hin'. unfold truncate_columns in Hin'.
    apply in_map_iff in Hin'. destruct Hin' as ([k0 v0] & E & Hin0).
    cbn [fst snd] in E. rewrite Forall_forall in Hf.
    destruct (Hf _ Hin0) as [_ (x & l0 & Hv)]. cbn [snd] in Hv. subst v0.
    injection E as _ <-. rewrite length_firstn.
    pose proof (Hle k0 (x :: l0) Hin0). lia.
Qed.

Lemma row_at_truncate n i d :
  i < n -> row_at i (truncate_columns n d) = row_at i d.
Proof.
  intros Hi. unfold row_at, truncate_columns. rewrite map_map.
  apply map_ext. intros [k v]. cbn [fst snd]. f_equal.
  destruct v; try reflexivity.
  rewrite nth_firstn. now rewrite (proj2 (Nat.ltb_lt i n) Hi).
Qed.

(** X2: the values past the length of the shortest column have no
    influence: the FieldSet cut to the first [n] values of every column,
    [n] the least column length, gives the same answer. *)
Theorem generate_sample_data_ignores_surplus (d : dict) (n : nat) :
  field_set d -> min_length n d ->
  generate_sample_data (truncate_columns n d) = generate_sample_data d.
Proof.
  intros Hfs Hmin. pose proof Hfs as (_ & _ & Hf).
  pose proof (min_length_positive n d Hf Hmin) as Hn.
  destruct (generate_sample_data_rows d Hfs) as (n1 & Hmin1 & ->).
  destruct (generate_sample_data_rows _ (field_set_truncate n d Hn Hfs))
    as (n2 & Hmin2 & ->).
  rewrite (min_length_unique n1 n d Hmin1 Hmin).
  rewrite (min_length_unique n2 n _ Hmin2 (min_length_truncate n d Hf Hmin)).
  do 2 f_equal. apply map_ext_in. intros i Hi. apply in_seq in Hi.
  f_equal. apply row_at_truncate. lia.
Qed.

Lemma generate_sample_data_ignores_surplus_witness :
  generate_sample_data
    [(KStr (u "a"), VList [VInt 1; VInt 2]);
     (KStr (u "b"), VList [VInt 4; VInt 5])]
  = generate_sample_data mismatched_fields.
Proof.
  apply (generate_sample_data_ignores_surplus mismatched_fields 2).
  - exact mismatched_fields_ok.
  - split.
    + exists (KStr (u "b")), [VInt 4; VInt 5]. split; [| reflexivity].
      right. now left.
    + intros k l [E | [E | []]]; injection E as _ <-; cbn; lia.
Defined.

(** ** Files *)

Lemma can_write_open_w fs path :
  can_write fs path = true ->
  Fs.open_w fs path
  = Ok (Fs.set_node fs path
          (Fs.Regular
             (Fs.File
                match Fs.node_at fs path with
                | Some (Fs.Regular f) => Fs.readable f
                | _ => true
                end true (Fs.Utf8 [])))).
Proof.
  unfold can_write, Fs.open_w.
  destruct (Fs.node_at fs path) as [[f |] |].
  - intros ->. reflexivity.
  - discriminate.
  - destruct (Fs.create_error fs path); [discriminate | reflexivity].
Qed.

Lemma open_w_can_write fs path fs1 :
  Fs.open_w fs path = Ok fs1 -> can_write fs path = true.
Proof.
  unfold can_write, Fs.open_w.
  destruct (Fs.node_at fs path) as [[f |] |].
  - destruct (Fs.writable f); [reflexivity | discriminate].
  - discriminate.
  - destruct (Fs.create_error fs path); [discriminate | reflexivity].
Qed.

Lemma write_set_node fs path r w old text :
  Fs.write (Fs.set_node fs path (Fs.Regular (Fs.File r w (Fs.Utf8 old))))
    path text
  = Fs.set_node
      (Fs.set_node fs path (Fs.Regular (Fs.File r w (Fs.Utf8 old)))) path
      (Fs.Regular (Fs.File r w (Fs.Utf8 (old ++ text)))).
Proof. unfold Fs.write. now rewrite set_node_same. Qed.

Lemma write_json_writes fs data path :
  can_write fs path = true ->
  let r := match Fs.node_at fs path with
           | Some (Fs.Regular f) => Fs.readable f
           | _ => true
           end in
  write_json fs data path
  = (Fs.set_node
       (Fs.set_node fs path (Fs.Regular (Fs.File r true (Fs.Utf8 [])))) path
       (Fs.Regular (Fs.File r true (Fs.Utf8 (Json.dumps false (Some 2) data)))),
     Ok (success_text path (length (Json.dumps true None data)))).
Proof.
  intros H r. unfold write_json. rewrite (can_write_open_w fs path H).
  fold r. now rewrite write_set_node.
Qed.

Lemma write_json_node fs data path :
  can_write fs path = true ->
  Fs.node_at (fst (write_json fs data path)) path
  = Some (Fs.Regular
            (Fs.File
               match Fs.node_at fs path with
               | Some (Fs.Regular f) => Fs.readable f
               | _ => true
               end true (Fs.Utf8 (Json.dumps false (Some 2) data)))).
Proof.
  intros H. rewrite (write_json_writes fs data path H).
  cbn [fst]. apply set_node_same.
Qed.

Lemma write_json_fails fs data path :
  can_write fs path = false ->
  exists e, Fs.open_w fs path = Raise e /\
            write_json fs data path = (fs, Ok (write_error_text (exn_str e))).
Proof.
  intros H. unfold write_json.
  destruct (Fs.open_w fs path) as [fs1 | e] eqn:E.
  - apply open_w_can_write in E. congruence.
  - now exists e.
Qed.

Lemma success_is_not_error path count message :
  success_text path count <> write_error_text message.
Proof. discriminate. Qed.





(** ** Reading *)

Lemma read_json_parsed fs path w text data :
  Fs.node_at fs path = Some (Fs.Regular (Fs.File true w (Fs.Utf8 text))) ->
  Json.loads (Fs.universal_newlines text) = Ok data ->
  read_json fs path = Ok (Json.dumps true (Some 2) data).
Proof.
  intros Hn Hl. unfold read_json, read_json_try, Fs.open_r. rewrite Hn.
  cbn [Fs.readable bind Fs.read Fs.data]. now rewrite Hl.
Qed.

Lemma read_json_unparsed fs path w text e :
  Fs.node_at fs path = Some (Fs.Regular (Fs.File true w (Fs.Utf8 text))) ->
  Json.loads (Fs.universal_newlines text) = Raise e ->
  read_json fs path = Ok (invalid_json_text (exn_str e)).
Proof.
  intros Hn Hl. unfold read_json, read_json_try, Fs.open_r. rewrite Hn.
  cbn [Fs.readable bind Fs.read Fs.data]. rewrite Hl. cbn [bind try_except].
  now rewrite (JsonFacts.loads_raises_decode_error _ e Hl).
Qed.

Lemma read_json_serialized fs path w ensure_ascii indent data :
  json_safe data = true ->
  Fs.node_at fs path
  = Some (Fs.Regular
            (Fs.File true w (Fs.Utf8 (Json.dumps ensure_ascii indent data)))) ->
  read_json fs path = Ok (Json.dumps true (Some 2) data).
Proof.
  intros Hs Hn. apply (read_json_parsed fs path w _ data Hn).
  rewrite JsonFacts.universal_newlines_no_cr
    by now apply JsonFacts.iterencode_no_cr.
  now apply JsonFacts.loads_dumps.
Qed.

(** ** ASCII output *)

Module AsciiFacts.

Import Json.
Local Open Scope N_scope.

Lemma is_ascii_app s t : is_ascii (s ++ t) = is_ascii s && is_ascii t.
Proof. apply forallb_app. Qed.

Lemma hex_digit_ascii d : d < 16 -> (hex_digit d <? 128) = true.
Proof.
  intros H. apply N.ltb_lt. unfold hex_digit.
  destruct (N.ltb_spec d 10); lia.
Qed.

Lemma escape_u_ascii n : is_ascii (escape_u n) = true.
Proof.
  unfold escape_u, hex4, is_ascii. cbn [forallb].
  rewrite !andb_true_iff. repeat split;
    try reflexivity; apply hex_digit_ascii; apply N.mod_lt; discriminate.
Qed.

Lemma escape_char_ascii c : is_ascii (escape_char true c) = true.
Proof.
  unfold escape_char, escape_dct.
  repeat match goal with
         | |- context [if ?c =? ?k then _ else _] =>
             destruct (N.eqb_spec c k); [reflexivity |]
         end.
  destruct (N.ltb_spec c 32); [apply escape_u_ascii |].
  cbn [andb].
  destruct (N.leb_spec 32 c); [| lia]. cbn [andb].
  destruct (N.leb_spec c 126); cbn [negb].
  - unfold is_ascii. cbn [forallb].
    assert ((c <? 128) = true) as -> by (apply N.ltb_lt; lia).
    reflexivity.
  - destruct (c <? 65536); [apply escape_u_ascii |].
    cbv zeta. now rewrite is_ascii_app, !escape_u_ascii.
Qed.

Lemma encode_basestring_ascii s : is_ascii (encode_basestring true s) = true.
Proof.
  unfold encode_basestring. cbn [is_ascii forallb].
  change (forallb (fun c => c <? 128)) with is_ascii.
  rewrite is_ascii_app. apply andb_true_intro. split; [reflexivity |].
  apply andb_true_intro. split; [| reflexivity].
  induction s as [|c s IH]; [reflexivity |].
  cbn [flat_map]. now rewrite is_ascii_app, escape_char_ascii.
Qed.

Lemma digits_ascii ds : forallb is_digit ds = true -> is_ascii ds = true.
Proof.
  induction ds as [|c ds IH]; [reflexivity |].
  cbn [forallb is_ascii]. intros H. apply andb_prop in H. destruct H as [Hc Hd].
  apply andb_true_intro. split; [| now apply IH].
  unfold is_digit in Hc. apply andb_prop in Hc. destruct Hc as [_ H2].
  apply N.leb_le in H2. apply N.ltb_lt. lia.
Qed.

Lemma int_repr_ascii z : is_ascii (int_repr z) = true.
Proof.
  destruct z as [| p | p]; unfold int_repr, N_repr.
  - reflexivity.
  - apply digits_ascii, JsonFacts.uint_chars_digits.
  - cbn [is_ascii forallb]. apply digits_ascii, JsonFacts.uint_chars_digits.
Qed.

Section Indented.

Variable indent : option nat.

Lemma newline_indent_ascii level :
  is_ascii (newline_indent indent level) = true.
Proof.
  unfold newline_indent. destruct indent; [| reflexivity].
  cbn [is_ascii forallb]. apply forallb_forall.
  intros c Hc. apply repeat_spec in Hc. now subst.
Qed.

Lemma separator_ascii level : is_ascii (separator indent level) = true.
Proof.
  unfold separator. rewrite is_ascii_app, newline_indent_ascii.
  unfold item_separator. destruct indent; reflexivity.
Qed.

Lemma list_rest_ascii level l :
  Forall (fun x => forall level,
            json_safe x = true ->
            is_ascii (iterencode true indent level x) = true) l ->
  forallb json_safe l = true ->
  is_ascii (list_rest true indent level l) = true.
Proof.
  induction 1 as [|y l IHy _ IHl]; [reflexivity |].
  cbn [forallb list_rest]. intros H. apply andb_prop in H.
  destruct H as [Hy Hl].
  now rewrite !is_ascii_app, separator_ascii, IHy, IHl.
Qed.

Lemma dict_rest_ascii level d :
  Forall (fun kv => forall level,
            json_safe (snd kv) = true ->
            is_ascii (iterencode true indent level (snd kv)) = true) d ->
  forallb safe_member d = true ->
  is_ascii (dict_rest true indent level d) = true.
Proof.
  induction 1 as [|[k y] d IHy _ IHd]; [reflexivity |].
  cbn [forallb dict_rest]. intros H. apply andb_prop in H.
  destruct H as [Hy Hd]. apply andb_prop in Hy. destruct Hy as [_ Hy].
  cbn [snd] in *. unfold member.
  now rewrite !is_ascii_app, separator_ascii, encode_basestring_ascii, IHy, IHd.
Qed.

Lemma iterencode_ascii v : forall level,
  json_safe v = true -> is_ascii (iterencode true indent level v) = true.
Proof.
  induction v as [| b | z | lit | s | l IH | d IH] using value_ind;
    intros level Hv.
  - reflexivity.
  - destruct b; reflexivity.
  - apply int_repr_ascii.
  - discriminate.
  - apply encode_basestring_ascii.
  - destruct l as [|x l]; [reflexivity |].
    rewrite JsonFacts.iterencode_list. cbn [json_safe forallb] in Hv.
    apply andb_prop in Hv. destruct Hv as [Hx Hl].
    inversion IH as [|? ? IHx IHl]; subst.
    cbn [is_ascii forallb]. change (forallb (fun c => c <? 128)) with is_ascii.
    now rewrite !is_ascii_app, !newline_indent_ascii, IHx, list_rest_ascii.
  - destruct d as [|[k x] d]; [reflexivity |].
    rewrite JsonFacts.iterencode_dict. cbn [json_safe map fst forallb] in Hv.
    apply andb_prop in Hv. destruct Hv as [_ Hm].
    apply andb_prop in Hm. destruct Hm as [Hkx Hd].
    apply andb_prop in Hkx. destruct Hkx as [_ Hx]. cbn [snd] in Hx.
    inversion IH as [|? ? IHx IHd]; subst. cbn [snd] in IHx.
    cbn [is_ascii forallb]. change (forallb (fun c => c <? 128)) with is_ascii.
    unfold member.
    now rewrite !is_ascii_app, !newline_indent_ascii, encode_basestring_ascii,
      IHx, dict_rest_ascii.
Qed.

End Indented.

End AsciiFacts.



(** ** Blank files and byte-order marks *)

Lemma blank_universal_newlines text :
  blank text = true -> blank (Fs.universal_newlines text) = true.
Proof.
  assert (H : forall n text, length text <= n -> blank text = true ->
                             blank (Fs.universal_newlines text) = true).
  { clear text. induction n as [|n IH]; intros [|c s] Hl Hb;
      try reflexivity; cbn [length] in Hl; [lia |].
    cbn [blank forallb] in Hb. apply andb_prop in Hb. destruct Hb as [Hc Hs].
    cbn [Fs.universal_newlines]. destruct (N.eqb c 13).
    - cbn [blank forallb]. change (Json.is_ws 10) with true. cbn [andb].
      destruct s as [|d s']; [reflexivity |].
      destruct (N.eqb d 10).
      + apply IH; [cbn [length] in Hl; lia |].
        cbn [forallb] in Hs. now apply andb_prop in Hs.
      + apply IH; [lia | exact Hs].
    - cbn [blank forallb]. rewrite Hc. apply IH; [lia | exact Hs]. }
  now apply (H (length text)).
Qed.

Lemma skip_ws_blank doc : blank doc = true -> Json.skip_ws doc = [].
Proof.
  induction doc as [|c doc IH]; [reflexivity |].
  cbn [blank forallb Json.skip_ws]. intros H. apply andb_prop in H.
  destruct H as [-> H]. now apply IH.
Qed.

Lemma blank_no_bom c doc : blank (c :: doc) = true -> N.eqb c 65279 = false.
Proof.
  cbn [blank forallb]. intros H. apply andb_prop in H. destruct H as [H _].
  unfold Json.is_ws in H. apply N.eqb_neq. intros ->. discriminate.
Qed.

Lemma loads_blank doc :
  blank doc = true ->
  Json.loads doc
  = Raise (Json.decode_error Json.expecting_value_msg doc (length doc)).
Proof.
  intros H.
  assert (Hd : Json.decode doc
               = Raise (Json.decode_error Json.expecting_value_msg doc
                          (length doc))).
  { unfold Json.decode. rewrite (skip_ws_blank doc H), JsonFacts.scan_once_S.
    unfold Json.position. cbn [length]. now rewrite Nat.sub_0_r. }
  unfold Json.loads. destruct doc as [|c doc]; [exact Hd |].
  now rewrite (blank_no_bom c doc H).
Qed.

(** X6: a readable file that holds only JSON white space, an empty file
    too, is reported as invalid JSON: ["Expecting value"] at the end of the
    text, with its line and column. *)
Theorem read_json_blank_file
    (fs : Fs.filesystem) (path : ustring) (w : bool) (text : ustring) :
  Fs.node_at fs path = Some (Fs.Regular (Fs.File true w (Fs.Utf8 text))) ->
  blank text = true ->
  let doc := Fs.universal_newlines text in
  read_json fs path
  = Ok (u "Error: Invalid JSON in file: Expecting value: line "
          ++ nat_repr (S (count_occ N.eq_dec doc 10%N))
          ++ u " column " ++ nat_repr (S (Json.column doc 0))
          ++ u " (char " ++ nat_repr (length doc) ++ u ")") /\
  (text = [] ->
   read_json fs path
   = Ok (u "Error: Invalid JSON in file: Expecting value: line 1 column 1 (char 0)")).
Proof.
  intros Hn Hb doc.
  pose proof (loads_blank doc (blank_universal_newlines text Hb)) as Hl.
  assert (E := read_json_unparsed fs path w text _ Hn Hl).
  unfold Json.decode_error in E. rewrite firstn_all in E.
  split; [exact E |]. intros ->. exact E.
Qed.

Lemma read_json_blank_file_witness :
  read_json (with_file empty_fs (u "new.json") []) (u "new.json")
  = Ok (u "Error: Invalid JSON in file: Expecting value: line 1 column 1 (char 0)").
Proof.
  refine (proj2 (read_json_blank_file
                   (with_file empty_fs (u "new.json") []) (u "new.json")
                   true [] _ _) _); reflexivity.
Defined.

(** X7: a readable file whose text starts with the byte-order mark U+FEFF
    is reported as invalid JSON at character 0, whatever follows the
    mark. *)
Theorem read_json_byte_order_mark
    (fs : Fs.filesystem) (path : ustring) (w : bool) (rest : ustring) :
  Fs.node_at fs path
  = Some (Fs.Regular (Fs.File true w (Fs.Utf8 (65279%N :: rest)))) ->
  read_json fs path
  = Ok (u "Error: Invalid JSON in file: Unexpected UTF-8 BOM (decode using utf-8-sig): line 1 column 1 (char 0)").
Proof.
  intros Hn.
  apply (read_json_unparsed fs path w (65279%N :: rest)
           (Json.decode_error Json.bom_msg
              (Fs.universal_newlines (65279%N :: rest)) 0) Hn).
  reflexivity.
Qed.

Lemma read_json_byte_order_mark_witness :
  read_json (with_file empty_fs (u "bom.json") (65279%N :: u "[]"))
    (u "bom.json")
  = Ok (u "Error: Invalid JSON in file: Unexpected UTF-8 BOM (decode using utf-8-sig): line 1 column 1 (char 0)").
Proof.
  apply (read_json_byte_order_mark
           (with_file empty_fs (u "bom.json") (65279%N :: u "[]"))
           (u "bom.json") true (u "[]")).
  reflexivity.
Defined.

(** ** From the synthesizer to the file and back *)

Lemma existsb_key_none d k :
  dict_get d k = None -> existsb (key_eqb k) (keys d) = false.
Proof.
  induction d as [|[k' v] d IH]; [reflexivity |].
  cbn [dict_get keys map fst existsb].
  destruct (key_eqb k k'); [discriminate | exact IH].
Qed.

Lemma dict_wf_distinct d : dict_wf d -> distinct_keys (keys d) = true.
Proof.
  induction d as [|[k v] d IH]; [reflexivity |].
  cbn [dict_wf keys map fst distinct_keys]. intros [Hnone Hwf].
  fold (keys d). now rewrite (existsb_key_none d k Hnone), IH.
Qed.

Lemma json_scalar_nth l i :
  forallb json_scalar l = true -> json_scalar (nth i l VNone) = true.
Proof.
  intros H. destruct (nth_in_or_default i l VNone) as [Hin | ->];
    [| reflexivity].
  rewrite forallb_forall in H. now apply H.
Qed.

Lemma forallb_over_map {A B} (f : B -> bool) (g : A -> B) l :
  forallb f (map g l) = forallb (fun x => f (g x)) l.
Proof.
  induction l as [|x l IH]; [reflexivity |]. cbn [map forallb]. now rewrite IH.
Qed.

Lemma flat_record_row_at i d :
  dict_wf d -> scalar_columns d = true -> flat_record (row_at i d) = true.
Proof.
  intros Hwf Hs. unfold flat_record. apply andb_true_intro. split.
  - change (map fst (row_at i d)) with (keys (row_at i d)).
    rewrite keys_row_at. now apply dict_wf_distinct.
  - unfold row_at. rewrite forallb_over_map. unfold scalar_columns in Hs.
    rewrite forallb_forall in Hs. apply forallb_forall.
    intros [k v] Hin. specialize (Hs _ Hin). cbn [fst snd] in *.
    apply andb_prop in Hs. destruct Hs as [-> Hv]. cbn [andb].
    destruct v; try discriminate. now apply json_scalar_nth.
Qed.

Lemma usable_can_write fs path : usable fs path = true -> can_write fs path = true.
Proof.
  unfold usable, can_write.
  destruct (Fs.node_at fs path) as [[f |] |]; try tauto.
  intros H. now apply andb_prop in H.
Qed.

Lemma write_json_read_json fs path data :
  json_safe data = true -> usable fs path = true ->
  snd (write_json fs data path)
  = Ok (success_text path (length (Json.dumps true None data))) /\
  read_json (fst (write_json fs data path)) path
  = Ok (Json.dumps true (Some 2) data).
Proof.
  intros Hs Hu. pose proof (usable_can_write fs path Hu) as Hw.
  split; [now rewrite (write_json_writes fs data path Hw) |].
  pose proof (write_json_node fs data path Hw) as Hn.
  assert (Hr : match Fs.node_at fs path with
               | Some (Fs.Regular f) => Fs.readable f
               | _ => true
               end = true).
  { unfold usable in Hu. destruct (Fs.node_at fs path) as [[f |] |];
      try reflexivity. now apply andb_prop in Hu. }
  rewrite Hr in Hn.
  exact (read_json_serialized _ path true false (Some 2) data Hs Hn).
Qed.



Section Loop.

Variable unicode_lower : N -> ustring.
Variable invoke : list message -> result (list message).

Lemma ends_loop_true line :
  ends_loop unicode_lower line = true <->
  In (lower unicode_lower (strip line)) sentinels.
Proof. apply existsb_ustring_in. Qed.

Lemma ends_loop_false line :
  ends_loop unicode_lower line = false <->
  ~ In (lower unicode_lower (strip line)) sentinels.
Proof.
  rewrite <- ends_loop_true. destruct (ends_loop unicode_lower line);
    split; congruence.
Qed.

Lemma conversation_end line rest h out :
  ends_loop unicode_lower line = true ->
  conversation unicode_lower invoke (line :: rest) h out
  = Exited h (print (print (out ++ u "You: ") rule) farewell).
Proof.
  intros H. apply ends_loop_true in H. cbn [conversation].
  now rewrite (turn_break unicode_lower invoke line h out H).
Qed.

Lemma conversation_next line rest h out :
  ends_loop unicode_lower line = false ->
  conversation unicode_lower invoke (line :: rest) h out
  = conversation unicode_lower invoke rest
      (h ++ [HumanMessage (strip line); run_agent invoke (strip line) h])
      (print
         (print (print (out ++ u "You: ") rule ++ u "Agent: ")
            (content (run_agent invoke (strip line) h)))
         rule).
Proof.
  intros H. apply ends_loop_false in H. cbn [conversation].
  now rewrite (turn_continue unicode_lower invoke line h out H).
Qed.

End Loop.



Lemma replies_length invoke inputs : forall h,
  length (replies invoke inputs h) = length inputs.
Proof.
  induction inputs as [|l ls IH]; intros h; [reflexivity |].
  cbn [replies length]. now rewrite IH.
Qed.

Lemma exchanges_length inputs : forall responses,
  length responses = length inputs ->
  length (flat_map exchange (combine inputs responses)) = 2 * length inputs.
Proof.
  induction inputs as [|l ls IH]; intros [|r rs] H; try discriminate;
    [reflexivity |].
  cbn [combine flat_map exchange length app]. injection H as H.
  rewrite (IH rs H). lia.
Qed.

Lemma conversation_final_history unicode_lower invoke lines : forall h out,
  final_history (conversation unicode_lower invoke lines h out)
  = h ++ flat_map exchange
           (combine (forwarded unicode_lower lines)
              (replies invoke (forwarded unicode_lower lines) h)).
Proof.
  induction lines as [|line rest IH]; intros h out.
  - cbn. now rewrite app_nil_r.
  - cbn [forwarded]. destruct (ends_loop unicode_lower line) eqn:E.
    + rewrite (conversation_end unicode_lower invoke line rest h out E).
      cbn. now rewrite app_nil_r.
    + rewrite (conversation_next unicode_lower invoke line rest h out E).
      rewrite IH. cbn [replies combine flat_map exchange fst snd].
      now rewrite <- app_assoc.
Qed.


(** X11: the lines after a sentinel are never read: the loop ends as it
    does on the input cut after that line, by [break]. *)
Theorem conversation_stops_at_first_sentinel
    (unicode_lower : N -> ustring)
    (invoke : list message -> result (list message))
    (before : list ustring) (line : ustring) (after : list ustring)
    (history : list message) (out : ustring) :
  ends_loop unicode_lower line = true ->
  conversation unicode_lower invoke (before ++ line :: after) history out
  = conversation unicode_lower invoke (before ++ [line]) history out /\
  exists history' out',
    conversation unicode_lower invoke (before ++ line :: after) history out
    = Exited history' out'.
Proof.
  intros Hline. revert history out.
  induction before as [|l ls IH]; intros h out.
  - cbn [app].
    rewrite !(conversation_end unicode_lower invoke line _ h out Hline).
    eauto.
  - cbn [app]. destruct (ends_loop unicode_lower l) eqn:E.
    + rewrite !(conversation_end unicode_lower invoke l _ h out E). eauto.
    + rewrite !(conversation_next unicode_lower invoke l _ h out E).
      apply IH.
Qed.

Lemma conversation_stops_at_first_sentinel_witness :
  ends_loop identity_lower (u "quit") = true /\
  conversation identity_lower greeting_agent
    ([u "hello"] ++ u "quit" :: [u "more"]) [] (u "")
  = conversation identity_lower greeting_agent ([u "hello"] ++ [u "quit"])
      [] (u "").
Proof.
  split; [reflexivity |].
  refine (proj1 (conversation_stops_at_first_sentinel identity_lower
                   greeting_agent [u "hello"] (u "quit") [u "more"] [] (u "")
                   _)).
  reflexivity.
Defined.

(** * strip *)

Lemma lstrip_split s :
  exists sp, s = sp ++ lstrip s /\ Forall (fun c => is_space c = true) sp.
Proof.
  induction s as [|c s (sp & E & Hsp)]; [now exists [] |].
  cbn [lstrip]. destruct (is_space c) eqn:Hc.
  - exists (c :: sp). split; [cbn; now f_equal | now constructor].
  - now exists [].
Qed.

Lemma lstrip_head s c r : lstrip s = c :: r -> is_space c = false.
Proof.
  induction s as [|d s IH]; [discriminate |].
  cbn [lstrip]. destruct (is_space d) eqn:Hd; [exact IH |].
  intros H. now inversion H; subst.
Qed.

Lemma rstrip_last s c r : rev (rstrip s) = c :: r -> is_space c = false.
Proof.
  unfold rstrip. rewrite rev_involutive. apply lstrip_head.
Qed.

Lemma rstrip_split s :
  exists sp, s = rstrip s ++ sp /\ Forall (fun c => is_space c = true) sp.
Proof.
  destruct (lstrip_split (rev s)) as (sp & E & Hsp).
  exists (rev sp). split.
  - unfold rstrip. rewrite <- rev_app_distr, <- E. now rewrite rev_involutive.
  - now apply Forall_rev.
Qed.

Lemma strip_head line c r : strip line = c :: r -> is_space c = false.
Proof.
  unfold strip. intros H.
  destruct (rstrip_split (lstrip line)) as (sp & E & _).
  rewrite H in E. cbn [app] in E. now apply lstrip_head in E.
Qed.

Lemma strip_last line c r : rev (strip line) = c :: r -> is_space c = false.
Proof. unfold strip. apply rstrip_last. Qed.

Lemma strip_trimmed line : strip line <> [] -> trimmed (strip line) = true.
Proof.
  intros Hne. unfold trimmed.
  destruct (strip line) as [|c r] eqn:E; [contradiction |].
  destruct (rev (c :: r)) as [|d r'] eqn:Er.
  - apply (f_equal (@length N)) in Er. rewrite length_rev in Er. discriminate.
  - rewrite <- E in Er.
    now rewrite (strip_head line c r E), (strip_last line d r' Er).
Qed.





Lemma conversation_final_output unicode_lower invoke lines : forall h out,
  final_output (conversation unicode_lower invoke lines h out)
  = out ++ flat_map shown
             (combine (forwarded unicode_lower lines)
                (replies invoke (forwarded unicode_lower lines) h))
        ++ closing (existsb (ends_loop unicode_lower) lines).
Proof.
  induction lines as [|line rest IH]; intros h out.
  - reflexivity.
  - cbn [forwarded existsb]. destruct (ends_loop unicode_lower line) eqn:E.
    + rewrite (conversation_end unicode_lower invoke line rest h out E).
      cbn [final_output orb combine flat_map closing app]. unfold print.
      now rewrite <- !app_assoc.
    + rewrite (conversation_next unicode_lower invoke line rest h out E).
      rewrite IH. cbn [replies combine flat_map orb]. unfold print, shown.
      cbn [snd]. now rewrite <- !app_assoc.
Qed.

